(** * Gascii frame extractors: delta encoder, frame retimer, raw RGB payload

    Shallow embedding of
      - scripts/extract_ansi_frames_optimized.py  (module [Ansi])
      - scripts/extract_raw_rgb.py                (module [RawRgb])
    together with the frame-timing arithmetic shared by both scripts
    (module [Retime]).  The display side is not part of these scripts; the
    terminal that plays the payloads, the reading of the payload text and the
    player that homes the cursor before each file (modules [Terminal], [Wire]
    and [Player]) follow the specification's description of it.

    Conventions.
    - A pixel is the numpy triple [R, G, B] of uint8 channels; channels are
      numbers in [N], a grid is the list of its pixel rows (shape
      (rows, cols, 3)).  numpy indexing [a[r, c]] raises IndexError outside
      the array: lookups return [option] and the loops run in the option
      monad, [None] standing for the uncaught exception.
    - [ansi_parts] is kept as the list of appended tokens; [render] gives the
      text that the corresponding f-string produces and [frame_data] the
      joined payload.
    - A Python float is an IEEE 754 binary64 number.  A finite float is
      represented by the rational it denotes ([Q]); the division that gives
      the frame-rate multiplier and the product [input_idx * multiplier] are
      rounded to 53 significant bits, ties to even (module [Binary64]), and
      [int(...)] truncates towards zero.  Infinities and NaN are not
      represented: [Binary64.is_finite] marks the results that binary64 holds.
    - Frames enter the model as the grids that [cv2.resize] and
      [cv2.cvtColor] return, which requires a width and a height of at least
      one; [cv2.resize] raises for an empty target size. *)

From Stdlib Require Import QArith Qround Qpower Lqa.
From Stdlib Require Import Ascii String DecimalString DecimalNat DecimalN Sorted.
From stdpp Require Import base numbers option list strings.

Local Open Scope nat_scope.
Local Open Scope string_scope.
Local Open Scope list_scope.

(** ** Python loop helper *)

(** [for x in xs: body] where [body] may raise: the state is threaded through
    the iterations and the first failure aborts the loop. *)
Fixpoint for_each {S A : Type} (body : A -> S -> option S) (xs : list A) (s : S)
  : option S :=
  match xs with
  | [] => Some s
  | x :: xs' => match body x s with
                | Some s' => for_each body xs' s'
                | None => None
                end
  end.

(** [range(n)] *)
Definition range (n : nat) : list nat := seq 0 n.

(** ** Pixel grids *)

Definition pixel : Type := N * N * N.
Abbreviation grid := (list (list pixel)).

(** [g[r, c]] *)
Definition px (g : grid) (r c : nat) : option pixel :=
  match g !! r with
  | Some row => row !! c
  | None => None
  end.

(** [g[y2:y2+2, :]]: slicing clips at the end of the array. *)
Definition band (g : grid) (y2 : nat) : grid := take 2 (drop y2 g).

(** A grid as [cv2.resize(frame, (width, height * 2))] returns it:
    [height * 2] rows of [width] pixels. *)
Definition wf_grid (width height : nat) (g : grid) : Prop :=
  length g = height * 2 /\ Forall (fun row => length row = width) g.

(** ** Python floats *)

Module Binary64.

Local Open Scope Z_scope.

(** A finite float is the rational number it denotes.  An arithmetic
    operation returns its exact result rounded to the nearest number with a
    significand of 53 bits, a tie going to the even significand (IEEE 754
    binary64, the rounding CPython's [float] uses).  The exponent is not
    bounded by the rounding itself: [is_finite] tells the results that
    binary64 holds; a larger one is [inf] in Python, on which [int()] raises
    OverflowError. *)

Definition pow2 (e : Z) : Q := (2 ^ e)%Q.

(** The nearest integer, ties to even. *)
Definition round_half_even (x : Q) : Z :=
  let f := Qfloor x in
  match (x - inject_Z f ?= 1 # 2)%Q with
  | Lt => f
  | Gt => f + 1
  | Eq => if Z.even f then f else f + 1
  end.

(** The binary exponent [e] of a positive number: [2^e <= x < 2^(e+1)]. *)
Definition ilog2 (x : Q) : Z :=
  let e := Z.log2 (Qnum x) - Z.log2 (Zpos (Qden x)) in
  if Qle_bool (pow2 e) x then e else e - 1.

(** Rounding of a positive number: the significand [x / 2^(e-52)] lies in
    [2^52, 2^53) and is rounded to an integer. *)
Definition round_pos (x : Q) : Q :=
  let e := ilog2 x - 52 in
  (inject_Z (round_half_even (x / pow2 e)) * pow2 e)%Q.

Definition round (x : Q) : Q :=
  match Qnum x with
  | Z0 => 0%Q
  | Zpos _ => round_pos x
  | Zneg _ => (- round_pos (- x))%Q
  end.

(** The largest finite float, [(2 - 2^-52) * 2^1023]. *)
Definition max_float : Q := (pow2 1024 - pow2 971)%Q.

Definition is_finite (x : Q) : Prop := (- max_float <= x <= max_float)%Q.

(** [float(i)]: the conversion that [*] and [/] apply to an [int] operand. *)
Definition of_int (i : Z) : Q := round (inject_Z i).

(** [a * b] on floats *)
Definition mul (a b : Q) : Q := round (a * b)%Q.

(** [a / b] on floats, [b] not zero *)
Definition div (a b : Q) : Q := round (a / b)%Q.

End Binary64.

(** ** Frame timing shared by both extractors *)

Module Retime.

(** [int(x)] on a float: truncation towards zero. *)
Definition py_int (x : Q) : Z := Z.quot (Qnum x) (Zpos (Qden x)).

(** [if target_fps <= 0: target_fps = 60] *)
Definition effective_fps (target_fps : Z) : Z :=
  if (target_fps <=? 0)%Z then 60%Z else target_fps.

(** [multiplier = target_fps / orig_fps if orig_fps else 1.0]: [target_fps]
    is an [int], [orig_fps] the float that [cap.get] returned. *)
Definition multiplier (target_fps : Z) (orig_fps : Q) : Q :=
  if Qeq_bool orig_fps 0 then 1%Q
  else Binary64.div (Binary64.of_int (effective_fps target_fps)) orig_fps.

(** [int(input_idx * multiplier)]: [input_idx] is an [int], the product is a
    float. *)
Definition out_frame_idx (multiplier : Q) (input_idx : nat) : Z :=
  py_int (Binary64.mul (Binary64.of_int (Z.of_nat input_idx)) multiplier).

(** [frames_to_generate = next_out_frame_idx - current_out_frame_idx]
    (called [count] in extract_raw_rgb.py). *)
Definition frames_to_generate (multiplier : Q) (input_idx : nat) : Z :=
  (out_frame_idx multiplier (input_idx + 1) - out_frame_idx multiplier input_idx)%Z.

(** Number of iterations of [for _ in range(k)] for a Python int [k]. *)
Definition range_len (k : Z) : nat := Z.to_nat k.

End Retime.

Module Ansi.

(** ** Escape tokens *)

Inductive op : Type :=
| Move (row col : nat)        (* f"{ESC}[{target_y};{target_x}H" *)
| SetBg (c : pixel)           (* f"{ESC}[48;2;{r1};{g1};{b1}m"   *)
| SetFg (c : pixel)           (* f"{ESC}[38;2;{r2};{g2};{b2}m"   *)
| Draw                        (* the half block U+2584            *)
| Reset.                      (* RESET = f"{ESC}[0m"              *)

#[global] Instance op_eq_dec : EqDecision op.
Proof. solve_decision. Defined.

Definition ESC : string := String "027"%char EmptyString.
Definition RESET : string := ESC ++ "[0m".
(** U+2584 LOWER HALF BLOCK as written to the utf-8 file: E2 96 84. *)
Definition HALF_BLOCK : string :=
  String "226"%char (String "150"%char (String "132"%char EmptyString)).

Definition dec_nat (n : nat) : string := NilZero.string_of_uint (Nat.to_uint n).
Definition dec_N (n : N) : string := NilZero.string_of_uint (N.to_uint n).

Definition render (o : op) : string :=
  match o with
  | Move target_y target_x =>
      ESC ++ "[" ++ dec_nat target_y ++ ";" ++ dec_nat target_x ++ "H"
  | SetBg (r1, g1, b1) =>
      ESC ++ "[48;2;" ++ dec_N r1 ++ ";" ++ dec_N g1 ++ ";" ++ dec_N b1 ++ "m"
  | SetFg (r2, g2, b2) =>
      ESC ++ "[38;2;" ++ dec_N r2 ++ ";" ++ dec_N g2 ++ ";" ++ dec_N b2 ++ "m"
  | Draw => HALF_BLOCK
  | Reset => RESET
  end.

(** [frame_data = "".join(ansi_parts)] *)
Definition join (parts : list op) : string :=
  String.concat "" (map render parts).

(** ** Escape state tracked while one frame is encoded *)

Record tracker : Type := Tracker {
  ansi_parts : list op;
  cur_fg : option pixel;
  cur_bg : option pixel;
  cursor_y : nat;
  cursor_x : nat
}.

(** Lines 115-123: the state every processed frame starts from. *)
Definition fresh : tracker :=
  {| ansi_parts := []; cur_fg := None; cur_bg := None;
     cursor_y := 1; cursor_x := 1 |}.

(** Lines 171-176. *)
Definition move_cursor (target_y target_x : nat) (t : tracker) : tracker :=
  if bool_decide (cursor_y t = target_y) && bool_decide (cursor_x t = target_x)
  then t
  else {| ansi_parts := ansi_parts t ++ [Move target_y target_x];
          cur_fg := cur_fg t; cur_bg := cur_bg t;
          cursor_y := target_y; cursor_x := target_x |}.

(** Lines 189-191. *)
Definition set_bg (new_bg : pixel) (t : tracker) : tracker :=
  if bool_decide (cur_bg t <> Some new_bg)
  then {| ansi_parts := ansi_parts t ++ [SetBg new_bg];
          cur_fg := cur_fg t; cur_bg := Some new_bg;
          cursor_y := cursor_y t; cursor_x := cursor_x t |}
  else t.

(** Lines 193-195. *)
Definition set_fg (new_fg : pixel) (t : tracker) : tracker :=
  if bool_decide (cur_fg t <> Some new_fg)
  then {| ansi_parts := ansi_parts t ++ [SetFg new_fg];
          cur_fg := Some new_fg; cur_bg := cur_bg t;
          cursor_y := cursor_y t; cursor_x := cursor_x t |}
  else t.

(** Lines 198-199. *)
Definition draw_char (t : tracker) : tracker :=
  {| ansi_parts := ansi_parts t ++ [Draw];
     cur_fg := cur_fg t; cur_bg := cur_bg t;
     cursor_y := cursor_y t; cursor_x := cursor_x t + 1 |}.

(** Lines 160-199: a changed cell is drawn. *)
Definition draw_cell (y x : nat) (top_pixel bottom_pixel : pixel) (t : tracker)
  : tracker :=
  draw_char (set_fg bottom_pixel (set_bg top_pixel (move_cursor (y + 1) (x + 1) t))).

(** Lines 149-155: [changed] for the cell whose pixels were just read. *)
Definition cell_changed (prev_rgb : option grid) (y2 x : nat)
    (top_pixel bottom_pixel : pixel) : option bool :=
  match prev_rgb with
  | None => Some true
  | Some prev =>
      match px prev y2 x, px prev (y2 + 1) x with
      | Some prev_top, Some prev_bottom =>
          Some (negb (bool_decide (top_pixel = prev_top)
                      && bool_decide (bottom_pixel = prev_bottom)))
      | _, _ => None
      end
  end.

(** Lines 144-199: body of [for x in range(width)]. *)
Definition cell_step (rgb : grid) (prev_rgb : option grid) (y x : nat)
    (t : tracker) : option tracker :=
  let y2 := y * 2 in
  match px rgb y2 x, px rgb (y2 + 1) x with
  | Some top_pixel, Some bottom_pixel =>
      match cell_changed prev_rgb y2 x top_pixel bottom_pixel with
      | Some true => Some (draw_cell y x top_pixel bottom_pixel t)
      | Some false => Some t
      | None => None
      end
  | _, _ => None
  end.

(** Lines 134-141: the whole band is unchanged ([np.array_equal]). *)
Definition row_unchanged (rgb : grid) (prev_rgb : option grid) (y2 : nat) : bool :=
  match prev_rgb with
  | Some prev => bool_decide (band rgb y2 = band prev y2)
  | None => false
  end.

(** Lines 126-199: body of [for y in range(height)]. *)
Definition row_step (width : nat) (rgb : grid) (prev_rgb : option grid) (y : nat)
    (t : tracker) : option tracker :=
  if row_unchanged rgb prev_rgb (y * 2) then Some t
  else for_each (cell_step rgb prev_rgb y) (range width) t.

(** Lines 126-199 from a given tracker state. *)
Definition scan (width height : nat) (rgb : grid) (prev_rgb : option grid)
    (t : tracker) : option tracker :=
  for_each (row_step width rgb prev_rgb) (range height) t.

(** Lines 211-212. *)
Definition finish (parts : list op) : list op :=
  match parts with
  | [] => []
  | _ => parts ++ [Reset]
  end.

(** Lines 115-212: the operation stream of one processed frame. *)
Definition encode (width height : nat) (rgb : grid) (prev_rgb : option grid)
  : option (list op) :=
  match scan width height rgb prev_rgb fresh with
  | Some t => Some (finish (ansi_parts t))
  | None => None
  end.

(** Line 214. *)
Definition frame_data (width height : nat) (rgb : grid) (prev_rgb : option grid)
  : option string :=
  match encode width height rgb prev_rgb with
  | Some parts => Some (join parts)
  | None => None
  end.

End Ansi.


(** ** extract_ansi_frames_optimized: the processing loop *)

Module AnsiLoop.
Import Ansi Retime.

(** The locals of [extract_ansi_frames_optimized] that live across
    iterations of [while True], and the files written so far
    ([frame_{frame_idx:05d}.txt] with its content, in write order).
    [last_tracker] holds [ansi_parts], [cur_fg], [cur_bg], [cursor_y],
    [cursor_x] as the previous processed frame left them ([None] while they
    are still unbound). *)
Record run_state : Type := RunState {
  frame_idx : nat;
  input_idx : nat;
  prev_rgb : option grid;
  last_tracker : option tracker;
  files : list (nat * string)
}.

(** Lines 81-86. *)
Definition init_state : run_state :=
  {| frame_idx := 0; input_idx := 0; prev_rgb := None;
     last_tracker := None; files := [] |}.

(** Lines 115-123 overwrite whatever the locals held. *)
Definition reset_locals (old : option tracker) : tracker := fresh.

(** Lines 243-248: [for _ in range(frames_to_generate - 1)]. *)
Fixpoint write_repeats (n : nat) (frame_idx : nat) (files : list (nat * string))
  : nat * list (nat * string) :=
  match n with
  | O => (frame_idx, files)
  | S n' => write_repeats n' (frame_idx + 1) (files ++ [(frame_idx, "")])
  end.

(** Lines 104-255: one iteration of [while True] for a frame that was read;
    [rgb] is the frame after [cv2.resize] and [cv2.cvtColor]. *)
Definition frame_step (width height : nat) (multiplier : Q) (rgb : grid)
    (s : run_state) : option run_state :=
  let frames_to_generate := frames_to_generate multiplier (input_idx s) in
  if (0 <? frames_to_generate)%Z then
    match scan width height rgb (prev_rgb s) (reset_locals (last_tracker s)) with
    | None => None
    | Some t =>
        let parts := finish (ansi_parts t) in
        let frame_data := join parts in
        let files1 := files s ++ [(frame_idx s, frame_data)] in
        let '(frame_idx2, files2) :=
          write_repeats (range_len (frames_to_generate - 1)) (frame_idx s + 1) files1 in
        Some {| frame_idx := frame_idx2;
                input_idx := input_idx s + 1;
                prev_rgb := Some rgb;
                last_tracker :=
                  Some {| ansi_parts := parts; cur_fg := cur_fg t; cur_bg := cur_bg t;
                          cursor_y := cursor_y t; cursor_x := cursor_x t |};
                files := files2 |}
    end
  else
    Some {| frame_idx := frame_idx s; input_idx := input_idx s + 1;
            prev_rgb := prev_rgb s; last_tracker := last_tracker s;
            files := files s |}.

(** Lines 95-255 over the frames that [cap.read()] delivers. *)
Definition run_frames (width height : nat) (multiplier : Q) (frames : list grid)
    (s : run_state) : option run_state :=
  for_each (frame_step width height multiplier) frames s.

Definition extract_ansi_frames_optimized (frames : list grid) (orig_fps : Q)
    (width height : nat) (target_fps : Z) : option run_state :=
  run_frames width height (multiplier target_fps orig_fps) frames init_state.

(** Number of repeat slots written for the frames read from [input_idx] on. *)
Fixpoint repeat_slots (multiplier : Q) (n input_idx : nat) : nat :=
  match n with
  | O => 0
  | S n' =>
      (if (0 <? frames_to_generate multiplier input_idx)%Z
       then range_len (frames_to_generate multiplier input_idx - 1) else 0)
      + repeat_slots multiplier n' (input_idx + 1)
  end.

End AnsiLoop.

(** ** extract_raw_rgb *)

Module RawRgb.
Import Retime.

(** One little-endian [H] field of [struct.pack]; values outside uint16
    raise [struct.error]. *)
Definition pack_H (v : nat) : option (list N) :=
  let n := N.of_nat v in
  if (n <? 65536)%N then Some [(n mod 256)%N; (n / 256)%N] else None.

(** [struct.pack('<HH', w, h)] *)
Definition pack_HH (w h : nat) : option (list N) :=
  match pack_H w, pack_H h with
  | Some bw, Some bh => Some (bw ++ bh)
  | _, _ => None
  end.

Definition pixel_bytes (p : pixel) : list N :=
  let '(r, g, b) := p in [r; g; b].

(** [rgb.tobytes()]: C order. *)
Definition tobytes (rgb : grid) : list N :=
  concat (map (fun row => concat (map pixel_bytes row)) rgb).

(** Lines 64-76 of [_process_task]: the bytes written to [frame_{idx:05d}.bin]
    once lines 27-62 have returned [rgb], the enhanced frame after
    [cv2.COLOR_BGR2RGB].  [None]: [struct.pack] raised (caught at line 78), no
    file is written.  An exception of lines 27-62 ([cv2.resize] raises for a
    width or height of zero) is caught by the same handler before line 64 is
    reached and is not part of this function. *)
Definition process_task (w h : nat) (rgb : grid) : option (list N) :=
  match pack_HH w h with
  | Some header => Some (header ++ tobytes rgb)
  | None => None
  end.

(** Lines 116-133: the tasks [(idx, frame)] that [gen_tasks] yields. *)
Fixpoint gen_tasks_from {frame : Type} (multiplier : Q) (frames : list frame)
    (idx input_idx : nat) : list (nat * frame) :=
  match frames with
  | [] => []
  | f :: rest =>
      let count := frames_to_generate multiplier input_idx in
      map (fun k => (idx + k, f)) (range (range_len count))
      ++ gen_tasks_from multiplier rest (idx + range_len count) (input_idx + 1)
  end.

Definition gen_tasks {frame : Type} (multiplier : Q) (frames : list frame)
  : list (nat * frame) :=
  gen_tasks_from multiplier frames 0 0.

End RawRgb.

(** ** Sample grids *)

Definition red : pixel := (255, 0, 0)%N.
Definition green : pixel := (0, 255, 0)%N.
Definition blue : pixel := (0, 0, 255)%N.

(** Scenario A: one cell, top red, bottom green. *)
Definition grid_A : grid := [[red]; [green]].
(** Scenario B: two cells in one row; tick 2 changes the right cell's bottom. *)
Definition grid_B1 : grid := [[red; red]; [green; green]].
Definition grid_B2 : grid := [[red; red]; [green; blue]].

(** ** Observations on operation streams *)

(** Tokens that move the cursor to column [col]. *)
Definition is_move_to_col (col : nat) (o : Ansi.op) : bool :=
  match o with
  | Ansi.Move _ c => bool_decide (c = col)
  | _ => false
  end.

(** Tokens that move the cursor to row [row]. *)
Definition is_move_to_row (row : nat) (o : Ansi.op) : bool :=
  match o with
  | Ansi.Move r _ => bool_decide (r = row)
  | _ => false
  end.

Definition is_draw (o : Ansi.op) : bool :=
  match o with Ansi.Draw => true | _ => false end.

Definition count_ops (p : Ansi.op -> bool) (parts : list Ansi.op) : nat :=
  length (List.filter p parts).

(** Whether the cell at ([y], [x]) differs from the baseline, as line 150-155
    decide it ([true] throughout when there is no baseline). *)
Definition cell_differs (rgb : grid) (prev_rgb : option grid) (y x : nat) : bool :=
  match px rgb (y * 2) x, px rgb (y * 2 + 1) x with
  | Some top_pixel, Some bottom_pixel =>
      match Ansi.cell_changed prev_rgb (y * 2) x top_pixel bottom_pixel with
      | Some changed => changed
      | None => false
      end
  | _, _ => false
  end.

(** Row [y] has exactly the [k >= 1] changed cells of columns
    [c, c+1, ..., c+k-1]. *)
Definition changed_run (width : nat) (rgb : grid) (prev_rgb : option grid)
    (y c k : nat) : Prop :=
  1 <= k /\ c + k <= width
  /\ forall x, x < width -> (cell_differs rgb prev_rgb y x = true <-> c <= x < c + k).

(** The baseline holds a pixel wherever the scan of a [width] x [2*height]
    grid reads one. *)
Definition covers (width height : nat) (prev_rgb : option grid) : Prop :=
  forall prev, prev_rgb = Some prev ->
  forall r c, r < height * 2 -> c < width -> is_Some (px prev r c).

(** The content of the first file that the step from [s] to [s'] wrote. *)
Definition primary_payload (s s' : AnsiLoop.run_state) : option string :=
  snd <$> AnsiLoop.files s' !! length (AnsiLoop.files s).

(** The locals after the frames [frames] were processed at multiplier 1 on a
    2x1-cell screen ([init_state] if the run failed). *)
Definition state_after (frames : list grid) : AnsiLoop.run_state :=
  default AnsiLoop.init_state
    (AnsiLoop.run_frames 2 1 1 frames AnsiLoop.init_state).

(** What holds of the locals between two iterations of the loop. *)
Definition loop_invariant (width height : nat) (mult : Q)
    (s : AnsiLoop.run_state) : Prop :=
  Z.of_nat (AnsiLoop.frame_idx s) = Retime.out_frame_idx mult (AnsiLoop.input_idx s)
  /\ length (AnsiLoop.files s) = AnsiLoop.frame_idx s
  /\ (forall prev, AnsiLoop.prev_rgb s = Some prev -> wf_grid width height prev).

(** The uint16 that two little-endian bytes hold. *)
Definition le16 (b0 b1 : N) : N := (b0 + 256 * b1)%N.

(** ** Further observations *)

(** Number of cells of row [y] that differ from the baseline. *)
Definition changed_in_row (width : nat) (rgb : grid) (prev_rgb : option grid)
    (y : nat) : nat :=
  length (List.filter (cell_differs rgb prev_rgb y) (range width)).

(** Number of cells of the whole grid that differ from the baseline. *)
Definition changed_cells (width height : nat) (rgb : grid)
    (prev_rgb : option grid) : nat :=
  sum_list (map (changed_in_row width rgb prev_rgb) (range height)).

Definition is_reset (o : Ansi.op) : bool :=
  match o with Ansi.Reset => true | _ => false end.

(** The (row, column) targets of the move tokens, in stream order. *)
Definition move_targets (parts : list Ansi.op) : list (nat * nat) :=
  omap (fun o => match o with Ansi.Move r c => Some (r, c) | _ => None end) parts.

(** The colours of the set-background tokens, in stream order. *)
Definition bg_tokens (parts : list Ansi.op) : list pixel :=
  omap (fun o => match o with Ansi.SetBg c => Some c | _ => None end) parts.

(** The colours of the set-foreground tokens, in stream order. *)
Definition fg_tokens (parts : list Ansi.op) : list pixel :=
  omap (fun o => match o with Ansi.SetFg c => Some c | _ => None end) parts.

(** Row-major order on screen positions. *)
Definition before (p q : nat * nat) : Prop :=
  p.1 < q.1 \/ (p.1 = q.1 /\ p.2 < q.2).

(** No element is immediately followed by an equal one. *)
Fixpoint adjacent_distinct {A : Type} (l : list A) : Prop :=
  match l with
  | x :: tl => match tl with
               | y :: _ => x <> y /\ adjacent_distinct tl
               | [] => True
               end
  | [] => True
  end.

(** While a frame is scanned, no reset token is in the list and every group
    of at most four tokens ends in a glyph. *)
Definition scan_shape (t : Ansi.tracker) : Prop :=
  count_ops is_reset (Ansi.ansi_parts t) = 0
  /\ length (Ansi.ansi_parts t) <= 4 * count_ops is_draw (Ansi.ansi_parts t).

(** The move tokens appended so far go to cells of the grid that come
    before [bound] in scan order, each after the one before it. *)
Definition targets_inv (width height : nat) (bound : nat * nat)
    (t : Ansi.tracker) : Prop :=
  StronglySorted before (move_targets (Ansi.ansi_parts t))
  /\ Forall (fun p => before p bound
                      /\ 1 <= p.1 <= height /\ 1 <= p.2 <= width)
       (move_targets (Ansi.ansi_parts t)).

(** The tracked colours are those of the last colour tokens, and no colour
    token repeats the one before it. *)
Definition colours_inv (t : Ansi.tracker) : Prop :=
  adjacent_distinct (bg_tokens (Ansi.ansi_parts t))
  /\ last (bg_tokens (Ansi.ansi_parts t)) = Ansi.cur_bg t
  /\ adjacent_distinct (fg_tokens (Ansi.ansi_parts t))
  /\ last (fg_tokens (Ansi.ansi_parts t)) = Ansi.cur_fg t.

(** ** The terminal that plays the payloads *)

Module Terminal.

(** What a character cell shows: its background and foreground colour
    ([None]: the terminal's default colour). *)
Definition cell : Type := option pixel * option pixel.

(** Modelled from the spec: the terminal onto which the payloads are played
    (the player is not under src/).  Section 6 gives the tokens
    (cursor-position with 1-based row and column, background, foreground, one
    glyph per draw, reset); section 4.2 says that the cursor advances one
    column after a draw; section 3 says that a cell shows the even pixel row
    as its background and the odd pixel row as its foreground. *)
Record terminal : Type := Term {
  t_row : nat;
  t_col : nat;
  t_bg : option pixel;
  t_fg : option pixel;
  t_screen : nat -> nat -> cell
}.

Definition put (scr : nat -> nat -> cell) (r c : nat) (v : cell)
  : nat -> nat -> cell :=
  fun r' c' => if bool_decide (r' = r /\ c' = c) then v else scr r' c'.

(** Modelled from the spec: the effect of one token on the terminal. *)
Definition exec (tm : terminal) (o : Ansi.op) : terminal :=
  match o with
  | Ansi.Move r c =>
      {| t_row := r; t_col := c; t_bg := t_bg tm; t_fg := t_fg tm;
         t_screen := t_screen tm |}
  | Ansi.SetBg p =>
      {| t_row := t_row tm; t_col := t_col tm; t_bg := Some p; t_fg := t_fg tm;
         t_screen := t_screen tm |}
  | Ansi.SetFg p =>
      {| t_row := t_row tm; t_col := t_col tm; t_bg := t_bg tm; t_fg := Some p;
         t_screen := t_screen tm |}
  | Ansi.Draw =>
      {| t_row := t_row tm; t_col := t_col tm + 1; t_bg := t_bg tm; t_fg := t_fg tm;
         t_screen := put (t_screen tm) (t_row tm) (t_col tm) (t_bg tm, t_fg tm) |}
  | Ansi.Reset =>
      {| t_row := t_row tm; t_col := t_col tm; t_bg := None; t_fg := None;
         t_screen := t_screen tm |}
  end.

(** Modelled from the spec: a stream is played token by token. *)
Definition play (parts : list Ansi.op) (tm : terminal) : terminal :=
  fold_left exec parts tm.

(** The cell at 1-based ([r], [c]) shows the two pixels of [rgb] that belong
    to it. *)
Definition cell_shows (scr : nat -> nat -> cell) (rgb : grid) (r c : nat) : Prop :=
  exists top bottom,
    px rgb ((r - 1) * 2) (c - 1) = Some top
    /\ px rgb ((r - 1) * 2 + 1) (c - 1) = Some bottom
    /\ scr r c = (Some top, Some bottom).

(** The screen shows the whole grid. *)
Definition shows (width height : nat) (scr : nat -> nat -> cell) (rgb : grid)
  : Prop :=
  forall r c, 1 <= r <= height -> 1 <= c <= width -> cell_shows scr rgb r c.

(** The terminal [tm] is what [tm0] has become by the tokens appended so far,
    and the tracker knows its cursor and the colours it has set. *)
Definition tracks (tm0 : terminal) (t : Ansi.tracker) (tm : terminal) : Prop :=
  tm = play (Ansi.ansi_parts t) tm0
  /\ t_row tm = Ansi.cursor_y t /\ t_col tm = Ansi.cursor_x t
  /\ (forall p, Ansi.cur_bg t = Some p -> t_bg tm = Some p)
  /\ (forall p, Ansi.cur_fg t = Some p -> t_fg tm = Some p).

(** The cells of the grid that the scan has passed when it stands at the
    1-based position [pos]. *)
Definition passed (width : nat) (pos : nat * nat) (r c : nat) : Prop :=
  1 <= r /\ 1 <= c <= width /\ before (r, c) pos.

(** The cells passed show [rgb]; every other cell is as it was. *)
Definition screen_inv (width : nat) (rgb : grid) (scr0 : nat -> nat -> cell)
    (pos : nat * nat) (scr : nat -> nat -> cell) : Prop :=
  forall r c,
    (passed width pos r c -> cell_shows scr rgb r c)
    /\ (~ passed width pos r c -> scr r c = scr0 r c).

End Terminal.

(** Between two cells of the scan: the terminal follows the tracker and the
    screen shows [rgb] on the cells passed. *)
Definition replay_inv (width : nat) (rgb : grid) (tm0 : Terminal.terminal)
    (pos : nat * nat) (t : Ansi.tracker) : Prop :=
  exists tm,
    Terminal.tracks tm0 t tm
    /\ Terminal.screen_inv width rgb (Terminal.t_screen tm0) pos
         (Terminal.t_screen tm).

(** The screen that shows [rgb] (default colours where [rgb] has no pixel). *)
Definition screen_of (rgb : grid) : nat -> nat -> Terminal.cell :=
  fun r c =>
    match px rgb ((r - 1) * 2) (c - 1), px rgb ((r - 1) * 2 + 1) (c - 1) with
    | Some top, Some bottom => (Some top, Some bottom)
    | _, _ => (None, None)
    end.

(** A terminal at home with default colours. *)
Definition terminal_showing (scr : nat -> nat -> Terminal.cell) : Terminal.terminal :=
  {| Terminal.t_row := 1; Terminal.t_col := 1;
     Terminal.t_bg := None; Terminal.t_fg := None;
     Terminal.t_screen := scr |}.

(** The slots strictly inside the group of an input frame read so far (all
    but the first slot of the group) hold the empty payload. *)
Definition repeats_empty (mult : Q) (s : AnsiLoop.run_state) : Prop :=
  forall i k,
    i < AnsiLoop.input_idx s ->
    (Retime.out_frame_idx mult i < Z.of_nat k
     < Retime.out_frame_idx mult (i + 1))%Z ->
    AnsiLoop.files s !! k = Some (k, "").

(** ** Reading a payload back *)

Module Wire.

Definition digit_of (c : ascii) : option (Decimal.uint -> Decimal.uint) :=
  match c with
  | "0" => Some Decimal.D0
  | "1" => Some Decimal.D1
  | "2" => Some Decimal.D2
  | "3" => Some Decimal.D3
  | "4" => Some Decimal.D4
  | "5" => Some Decimal.D5
  | "6" => Some Decimal.D6
  | "7" => Some Decimal.D7
  | "8" => Some Decimal.D8
  | "9" => Some Decimal.D9
  | _ => None
  end%char.

(** The longest run of decimal digits at the head of [s], and what follows. *)
Fixpoint read_digits (s : string) : Decimal.uint * string :=
  match s with
  | String c rest =>
      match digit_of c with
      | Some mk => let '(d, r) := read_digits rest in (mk d, r)
      | None => (Decimal.Nil, s)
      end
  | EmptyString => (Decimal.Nil, EmptyString)
  end.

Definition read_nat (s : string) : nat * string :=
  let '(d, r) := read_digits s in (Nat.of_uint d, r).

Definition read_N (s : string) : N * string :=
  let '(d, r) := read_digits s in (N.of_uint d, r).

(** [s] without the prefix [p], if it starts with [p]. *)
Fixpoint lit (p s : string) : option string :=
  match p with
  | EmptyString => Some s
  | String c p' =>
      match s with
      | String c' s' => if Ascii.eqb c c' then lit p' s' else None
      | EmptyString => None
      end
  end.

(** Modelled from the spec: how the terminal reads one token of the text
    payload (the player is not under src/).  Section 6 lists the tokens:
    [ESC[{row};{col}H], [ESC[48;2;{r};{g};{b}m], [ESC[38;2;{r};{g};{b}m],
    the glyph, and [ESC[0m], numbers in plain decimal. *)
Definition parse_token (s : string) : option (Ansi.op * string) :=
  match lit (Ansi.ESC ++ "[") s with
  | Some r0 =>
      let '(n1, r1) := read_nat r0 in
      match r1 with
      | String ";" r2 =>
          let '(n2, r3) := read_nat r2 in
          match r3 with
          | String "H" r4 => Some (Ansi.Move n1 n2, r4)
          | String ";" r4 =>
              let '(cr, r5) := read_N r4 in
              match lit ";" r5 with
              | Some r6 =>
                  let '(cg, r7) := read_N r6 in
                  match lit ";" r7 with
                  | Some r8 =>
                      let '(cb, r9) := read_N r8 in
                      match lit "m" r9 with
                      | Some r10 =>
                          if Nat.eqb n1 48 && Nat.eqb n2 2
                          then Some (Ansi.SetBg (cr, cg, cb), r10)
                          else if Nat.eqb n1 38 && Nat.eqb n2 2
                               then Some (Ansi.SetFg (cr, cg, cb), r10)
                               else None
                      | None => None
                      end
                  | None => None
                  end
              | None => None
              end
          | _ => None
          end
      | String "m" r2 => if Nat.eqb n1 0 then Some (Ansi.Reset, r2) else None
      | _ => None
      end
  | None =>
      match lit Ansi.HALF_BLOCK s with
      | Some r => Some (Ansi.Draw, r)
      | None => None
      end
  end.

(** Token after token, at most [fuel] of them. *)
Fixpoint parse_tokens (fuel : nat) (s : string) : option (list Ansi.op) :=
  match s with
  | EmptyString => Some []
  | _ =>
      match fuel with
      | O => None
      | S fuel' =>
          match parse_token s with
          | Some (o, rest) =>
              match parse_tokens fuel' rest with
              | Some parts => Some (o :: parts)
              | None => None
              end
          | None => None
          end
      end
  end.

(** A token is never empty, so the length of the payload is fuel enough. *)
Definition parse (payload : string) : option (list Ansi.op) :=
  parse_tokens (String.length payload) payload.

(** The head of [s] is not a decimal digit. *)
Definition no_digit_ahead (s : string) : Prop :=
  match s with
  | String c _ => digit_of c = None
  | EmptyString => True
  end.

End Wire.

(** ** Playing the files of a run *)

Module Player.

(** Modelled from the spec: the player puts the cursor at home before each
    file (section 9; the source relies on it at lines 88-91: "the cursor
    resets to Home (1,1) at the start of each frame"), the colours and the
    screen stay as the file before left them. *)
Definition home (tm : Terminal.terminal) : Terminal.terminal :=
  {| Terminal.t_row := 1; Terminal.t_col := 1;
     Terminal.t_bg := Terminal.t_bg tm; Terminal.t_fg := Terminal.t_fg tm;
     Terminal.t_screen := Terminal.t_screen tm |}.

(** Modelled from the spec: one file is read token by token and played from
    the home position (a file that cannot be read changes nothing). *)
Definition play_file (tm : Terminal.terminal) (payload : string)
  : Terminal.terminal :=
  match Wire.parse payload with
  | Some parts => Terminal.play parts (home tm)
  | None => tm
  end.

(** The files are played in the order of their sequence numbers, which is
    the order in which they were written. *)
Definition play_files (tm : Terminal.terminal) (files : list (nat * string))
  : Terminal.terminal :=
  fold_left (fun tm f => play_file tm f.2) files tm.

End Player.

(** After the files written so far, the screen shows the baseline. *)
Definition screen_shows_baseline (width height : nat) (tm0 : Terminal.terminal)
    (s : AnsiLoop.run_state) : Prop :=
  forall prev, AnsiLoop.prev_rgb s = Some prev ->
    Terminal.shows width height
      (Terminal.t_screen (Player.play_files tm0 (AnsiLoop.files s))) prev.

(** * Properties *)

Import Ansi Retime AnsiLoop RawRgb.

(** ** Loops *)

Lemma for_each_app {S A : Type} (body : A -> S -> option S) (xs ys : list A) (s : S) :
  for_each body (xs ++ ys) s =
  match for_each body xs s with
  | Some s' => for_each body ys s'
  | None => None
  end.
Proof.
  revert s. induction xs as [|x xs IH]; intros s; simpl; [reflexivity|].
  destruct (body x s); [apply IH | reflexivity].
Qed.

Lemma for_each_skip {S A : Type} (body : A -> S -> option S) (xs : list A) (s : S) :
  (forall x, x ∈ xs -> body x s = Some s) -> for_each body xs s = Some s.
Proof.
  induction xs as [|x xs IH]; intros H; simpl; [reflexivity|].
  rewrite H by constructor. apply IH. intros x' Hx'. apply H. by constructor.
Qed.

(** An invariant carried through the loop, for a body that cannot fail on
    the states the invariant admits. *)
Lemma for_each_inv {S A : Type} (body : A -> S -> option S) (I : S -> Prop)
    (xs : list A) (s : S) :
  (forall x s, x ∈ xs -> I s -> exists s', body x s = Some s' /\ I s') ->
  I s -> exists s', for_each body xs s = Some s' /\ I s'.
Proof.
  revert s. induction xs as [|x xs IH]; intros s Hstep Hs; simpl; [eauto|].
  destruct (Hstep x s) as (s1 & -> & Hs1); [constructor | assumption |].
  apply IH; [|assumption]. intros x' s' Hx'. apply Hstep. by constructor.
Qed.

(** An invariant of successful runs. *)
Lemma for_each_preserves {S A : Type} (body : A -> S -> option S) (I : S -> Prop)
    (xs : list A) (s s' : S) :
  (forall x s s', x ∈ xs -> I s -> body x s = Some s' -> I s') ->
  I s -> for_each body xs s = Some s' -> I s'.
Proof.
  revert s. induction xs as [|x xs IH]; intros s Hstep Hs; simpl.
  - intros [= <-]. assumption.
  - destruct (body x s) as [s1|] eqn:E; [|discriminate].
    apply IH.
    + intros x' t t' Hx'. apply Hstep. by constructor.
    + eapply Hstep; [constructor | exact Hs | exact E].
Qed.

Lemma elem_of_range (n x : nat) : x ∈ range n <-> x < n.
Proof. unfold range. rewrite elem_of_seq. lia. Qed.

(** ** Grids *)

Lemma px_wf (width height : nat) (g : grid) (r c : nat) :
  wf_grid width height g -> r < height * 2 -> c < width -> is_Some (px g r c).
Proof.
  intros [Hlen Hrows] Hr Hc. unfold px.
  destruct (lookup_lt_is_Some_2 g r) as [row Hrow]; [lia|].
  rewrite Hrow. apply lookup_lt_is_Some_2.
  rewrite Forall_forall in Hrows.
  rewrite (Hrows row); [assumption|].
  eapply list_elem_of_lookup_2, Hrow.
Qed.

Lemma band_lookup (g : grid) (y2 i : nat) :
  i < 2 -> band g y2 !! i = g !! (y2 + i).
Proof.
  intros Hi. unfold band. rewrite lookup_take_lt by assumption.
  by rewrite lookup_drop.
Qed.

(** Equal bands hold equal pixels. *)
Lemma band_px (g g' : grid) (y2 x : nat) :
  band g y2 = band g' y2 ->
  px g y2 x = px g' y2 x /\ px g (y2 + 1) x = px g' (y2 + 1) x.
Proof.
  intros Hb. unfold px.
  rewrite <- (Nat.add_0_r y2) at 1 2.
  rewrite <- !band_lookup by lia. by rewrite Hb.
Qed.

(** ** encode(G, G) *)

Lemma scan_same (width height : nat) (G : grid) (t : tracker) :
  scan width height G (Some G) t = Some t.
Proof.
  unfold scan. apply for_each_skip. intros y _.
  unfold row_step, row_unchanged. by rewrite bool_decide_eq_true_2.
Qed.

(** C1. Encoding a grid against a baseline equal to it gives the empty
    operation stream: no token at all is appended, and the payload written
    is the empty string. *)
Theorem encode_same_grid_empty (width height : nat) (G : grid) :
  encode width height G (Some G) = Some []
  /\ frame_data width height G (Some G) = Some "".
Proof.
  unfold frame_data, encode. rewrite scan_same. by split.
Qed.

(** ** Scenarios A and B *)

(** The stream that the specification's scenario A expects is not the one
    produced: the tracked cursor starts at (1,1), which is the target of the
    only cell, so no move token is emitted. *)
Lemma scenario_A_first_tick_has_no_move :
  encode 1 1 grid_A None <> Some [Move 1 1; SetBg red; SetFg green; Draw; Reset].
Proof. vm_compute. discriminate. Qed.

(** C3 (amended). Scenario A: on the first tick (no baseline) the one-cell
    grid with top (255,0,0) and bottom (0,255,0) is encoded as
    set-background(255,0,0), set-foreground(0,255,0), one glyph, reset, in
    that order and without a move token; a second tick with the identical
    grid gives the empty stream, and the two files written are that payload
    and the empty string. *)
Theorem scenario_A :
  encode 1 1 grid_A None = Some [SetBg red; SetFg green; Draw; Reset]
  /\ encode 1 1 grid_A (Some grid_A) = Some []
  /\ files <$> run_frames 1 1 1 [grid_A; grid_A] init_state
     = Some [(0, join [SetBg red; SetFg green; Draw; Reset]); (1, "")].
Proof. repeat split; vm_compute; reflexivity. Qed.

(** The stream that the specification's scenario B expects is not the one
    produced: the tracked background is unset at the start of the call, so
    the first drawn cell sets its background. *)
Lemma scenario_B_second_tick_sets_background :
  encode 2 1 grid_B2 (Some grid_B1) <> Some [Move 1 2; SetFg blue; Draw; Reset].
Proof. vm_compute. discriminate. Qed.

(** C4 (amended). Scenario B: the second tick, encoded against the first,
    is move(1,2), set-background(255,0,0), set-foreground(0,0,255), one
    glyph, reset; no move token targets column 1. *)
Theorem scenario_B :
  encode 2 1 grid_B1 None
    = Some [SetBg red; SetFg green; Draw; Draw; Reset]
  /\ encode 2 1 grid_B2 (Some grid_B1)
    = Some [Move 1 2; SetBg red; SetFg blue; Draw; Reset]
  /\ List.filter (is_move_to_col 1) <$> encode 2 1 grid_B2 (Some grid_B1)
     = Some [].
Proof. repeat split; vm_compute; reflexivity. Qed.

(** ** Counting tokens *)

Lemma count_ops_app (p : op -> bool) (xs ys : list op) :
  count_ops p (xs ++ ys) = count_ops p xs + count_ops p ys.
Proof. unfold count_ops. by rewrite List.filter_app, length_app. Qed.

Lemma count_ops_finish (p : op -> bool) (parts : list op) :
  p Reset = false -> count_ops p (finish parts) = count_ops p parts.
Proof.
  intros Hp. destruct parts as [|o parts]; [reflexivity|].
  unfold finish. rewrite count_ops_app. unfold count_ops at 2. simpl.
  rewrite Hp. simpl. lia.
Qed.

Lemma draw_cell_draws (y x : nat) (top bottom : pixel) (t : tracker) :
  count_ops is_draw (ansi_parts (draw_cell y x top bottom t))
  = count_ops is_draw (ansi_parts t) + 1.
Proof.
  unfold draw_cell, draw_char, set_fg, set_bg, move_cursor.
  repeat (case_bool_decide || case_match || simpl);
    rewrite ?count_ops_app; unfold count_ops; simpl; lia.
Qed.

(** Without a baseline every cell of a well-formed grid is drawn. *)
Lemma cell_step_first_tick (width height : nat) (rgb : grid) (y x : nat)
    (t : tracker) :
  wf_grid width height rgb -> y < height -> x < width ->
  exists top bottom,
    cell_step rgb None y x t = Some (draw_cell y x top bottom t).
Proof.
  intros Hwf Hy Hx. unfold cell_step.
  destruct (px_wf width height rgb (y * 2) x) as [top ->]; [done | lia | done |].
  destruct (px_wf width height rgb (y * 2 + 1) x) as [bottom ->];
    [done | lia | done |].
  simpl. eauto.
Qed.

Lemma row_first_tick_draws (width height : nat) (rgb : grid) (y : nat)
    (t : tracker) (n : nat) :
  wf_grid width height rgb -> y < height -> n <= width ->
  exists t',
    for_each (cell_step rgb None y) (range n) t = Some t'
    /\ count_ops is_draw (ansi_parts t') = count_ops is_draw (ansi_parts t) + n.
Proof.
  intros Hwf Hy. induction n as [|n IH]; intros Hn.
  - exists t. split; [reflexivity | lia].
  - destruct IH as (t1 & Hrun & Hcount); [lia|].
    unfold range in *. rewrite seq_S, for_each_app, Hrun. simpl.
    destruct (cell_step_first_tick width height rgb y n t1) as (top & bottom & ->);
      [done | done | lia |].
    eexists. split; [reflexivity|]. rewrite draw_cell_draws. lia.
Qed.

Lemma scan_first_tick_draws (width height : nat) (rgb : grid) (t : tracker)
    (n : nat) :
  wf_grid width height rgb -> n <= height ->
  exists t',
    for_each (row_step width rgb None) (range n) t = Some t'
    /\ count_ops is_draw (ansi_parts t')
       = count_ops is_draw (ansi_parts t) + width * n.
Proof.
  intros Hwf. induction n as [|n IH]; intros Hn.
  - exists t. split; [reflexivity | lia].
  - destruct IH as (t1 & Hrun & Hcount); [lia|].
    unfold range in *. rewrite seq_S, for_each_app, Hrun. simpl.
    unfold row_step. simpl.
    destruct (row_first_tick_draws width height rgb n t1 width) as (t2 & -> & Hc2);
      [done | lia | lia |].
    exists t2. split; [reflexivity | lia].
Qed.

(** C6. With no baseline, a [width] x [2*height] pixel grid is encoded with
    exactly [width * height] draw tokens: every cell is drawn once. *)
Theorem first_tick_draws_every_cell (width height : nat) (rgb : grid) :
  1 <= width -> 1 <= height -> wf_grid width height rgb ->
  exists parts,
    encode width height rgb None = Some parts
    /\ count_ops is_draw parts = width * height.
Proof.
  intros _ _ Hwf. unfold encode, scan.
  destruct (scan_first_tick_draws width height rgb fresh height) as (t & -> & Hc);
    [done | lia |].
  eexists. split; [reflexivity|].
  rewrite count_ops_finish by reflexivity. rewrite Hc. reflexivity.
Qed.

Lemma wf_grid_B1 : wf_grid 2 1 grid_B1.
Proof. split; [reflexivity | repeat constructor]. Qed.

Lemma first_tick_draws_every_cell_witness :
  exists parts,
    encode 2 1 grid_B1 None = Some parts /\ count_ops is_draw parts = 2 * 1.
Proof.
  apply (first_tick_draws_every_cell 2 1 grid_B1); [lia | lia | exact wf_grid_B1].
Defined.

(** ** Cells *)

Lemma cell_step_cases (rgb : grid) (prev_rgb : option grid) (y x : nat)
    (t t' : tracker) :
  cell_step rgb prev_rgb y x t = Some t' ->
  (cell_differs rgb prev_rgb y x = false /\ t' = t)
  \/ (cell_differs rgb prev_rgb y x = true
      /\ exists top bottom, t' = draw_cell y x top bottom t).
Proof.
  unfold cell_step, cell_differs.
  destruct (px rgb (y * 2) x) as [top|]; [|discriminate].
  destruct (px rgb (y * 2 + 1) x) as [bottom|]; [|discriminate].
  destruct (cell_changed prev_rgb (y * 2) x top bottom) as [[|]|];
    [| |discriminate]; intros [= <-]; [right | left]; eauto.
Qed.

Lemma filter_snoc (p : op -> bool) (parts : list op) (o : op) :
  List.filter p (parts ++ [o]) = List.filter p parts ++ (if p o then [o] else []).
Proof. rewrite List.filter_app. simpl. by destruct (p o). Qed.

Lemma filter_finish (p : op -> bool) (parts : list op) :
  p Reset = false -> List.filter p (finish parts) = List.filter p parts.
Proof.
  intros Hp. destruct parts as [|o parts]; [reflexivity|].
  unfold finish. rewrite filter_snoc, Hp. by rewrite app_nil_r.
Qed.

(** What drawing a cell does to the cursor and to the move tokens. *)
Lemma draw_cell_moves (r y x : nat) (top bottom : pixel) (t : tracker) :
  let t' := draw_cell y x top bottom t in
  List.filter (is_move_to_row r) (ansi_parts t')
  = List.filter (is_move_to_row r) (ansi_parts t)
    ++ (if bool_decide (cursor_y t = y + 1) && bool_decide (cursor_x t = x + 1)
        then []
        else if bool_decide (y + 1 = r) then [Move (y + 1) (x + 1)] else [])
  /\ cursor_y t' = y + 1 /\ cursor_x t' = x + 2.
Proof.
  unfold draw_cell, draw_char, set_fg, set_bg, move_cursor.
  destruct (bool_decide (cursor_y t = y + 1)) eqn:Ey;
    destruct (bool_decide (cursor_x t = x + 1)) eqn:Ex; simpl;
    try (apply bool_decide_eq_true in Ey); try (apply bool_decide_eq_true in Ex);
    repeat (case_bool_decide; simpl);
    rewrite ?filter_snoc; simpl; rewrite ?app_nil_r;
    repeat (case_bool_decide; simpl); rewrite ?app_nil_r;
    repeat split; try reflexivity; try lia; try congruence.
Qed.

(** ** Rows *)

Section Row.
Variables (width : nat) (rgb : grid) (prev_rgb : option grid).

(** Cells that do not differ leave the tracker as it is. *)
Lemma cells_unchanged (y : nat) (xs : list nat) (t t' : tracker) :
  (forall x, x ∈ xs -> cell_differs rgb prev_rgb y x = false) ->
  for_each (cell_step rgb prev_rgb y) xs t = Some t' -> t' = t.
Proof.
  intros Hsame Hrun.
  apply (for_each_preserves (cell_step rgb prev_rgb y) (fun s => s = t) xs t t');
    [|reflexivity|exact Hrun].
  intros x s s' Hx -> Hstep.
  destruct (cell_step_cases _ _ _ _ _ _ Hstep) as [[_ ->]|[Hd _]]; [reflexivity|].
  rewrite Hsame in Hd by assumption. discriminate.
Qed.

(** Once the cursor stands on the first of [k] adjacent changed cells, the
    whole stretch is drawn without a move token. *)
Lemma cells_adjacent (r y : nat) (k : nat) : forall (c : nat) (t t' : tracker),
  (forall x, c <= x < c + k -> cell_differs rgb prev_rgb y x = true) ->
  cursor_y t = y + 1 -> cursor_x t = c + 1 ->
  for_each (cell_step rgb prev_rgb y) (seq c k) t = Some t' ->
  List.filter (is_move_to_row r) (ansi_parts t')
  = List.filter (is_move_to_row r) (ansi_parts t)
  /\ cursor_y t' = y + 1 /\ cursor_x t' = c + k + 1.
Proof.
  induction k as [|k IH]; intros c t t' Hch Hy Hx; simpl.
  - intros [= <-]. repeat split; [assumption | lia].
  - destruct (cell_step rgb prev_rgb y c t) as [t1|] eqn:Hstep; [|discriminate].
    intros Hrest.
    destruct (cell_step_cases _ _ _ _ _ _ Hstep) as [[Hd _]|[_ (top & bottom & ->)]].
    { rewrite Hch in Hd by lia. discriminate. }
    destruct (draw_cell_moves r y c top bottom t) as (Hm & Hy1 & Hx1).
    rewrite Hy, Hx, !bool_decide_eq_true_2, app_nil_r in Hm by reflexivity.
    destruct (IH (S c) _ _ (fun x Hx' => Hch x ltac:(lia)) Hy1 ltac:(lia) Hrest)
      as (Hm' & Hy' & Hx').
    repeat split; [congruence | assumption | lia].
Qed.

(** A row whose changed cells are exactly one stretch: one move token to
    its first cell, unless the cursor is there already. *)
Lemma row_with_run (y c k : nat) (t t' : tracker) :
  changed_run width rgb prev_rgb y c k ->
  row_step width rgb prev_rgb y t = Some t' ->
  List.filter (is_move_to_row (y + 1)) (ansi_parts t')
  = List.filter (is_move_to_row (y + 1)) (ansi_parts t)
    ++ (if bool_decide (cursor_y t = y + 1) && bool_decide (cursor_x t = c + 1)
        then [] else [Move (y + 1) (c + 1)]).
Proof.
  intros (Hk & Hw & Hrun). unfold row_step.
  destruct (row_unchanged rgb prev_rgb (y * 2)) eqn:Hskip.
  { (* a skipped band has no changed cell *)
    exfalso. unfold row_unchanged in Hskip.
    destruct prev_rgb as [prev|] eqn:Hprev; [|discriminate].
    apply bool_decide_eq_true in Hskip.
    destruct (band_px rgb prev (y * 2) c Hskip) as [Htop Hbot].
    assert (cell_differs rgb (Some prev) y c = true) as Hd
      by (apply Hrun; lia).
    unfold cell_differs, cell_changed in Hd. rewrite <- Htop, <- Hbot in Hd.
    destruct (px rgb (y * 2) c); [|discriminate].
    destruct (px rgb (y * 2 + 1) c); [|discriminate].
    rewrite !bool_decide_eq_true_2 in Hd by reflexivity. discriminate. }
  unfold range.
  replace width with (c + (k + (width - (c + k)))) at 1 by lia.
  rewrite !seq_app, !for_each_app. simpl.
  destruct (for_each _ (seq 0 c) t) as [t0|] eqn:Hbefore; [|discriminate].
  apply cells_unchanged in Hbefore as ->.
  2:{ intros x Hx. apply elem_of_seq in Hx. apply not_true_is_false.
      rewrite Hrun by lia. lia. }
  destruct k as [|k]; [lia|]. simpl.
  destruct (cell_step rgb prev_rgb y c t) as [t1|] eqn:Hfirst; [|discriminate].
  destruct (cell_step_cases _ _ _ _ _ _ Hfirst) as [[Hd _]|[_ (top & bottom & ->)]].
  { rewrite (proj2 (Hrun c ltac:(lia))) in Hd by lia. discriminate. }
  destruct (draw_cell_moves (y + 1) y c top bottom t) as (Hm & Hy1 & Hx1).
  rewrite for_each_app.
  destruct (for_each _ (seq (S c) k) _) as [t2|] eqn:Hstretch; [|discriminate].
  apply (cells_adjacent (y + 1)) in Hstretch as (Hm2 & Hy2 & Hx2);
    [| intros x Hx; apply Hrun; lia | assumption | lia].
  intros Hafter. apply cells_unchanged in Hafter as ->.
  2:{ intros x Hx. apply elem_of_seq in Hx. apply not_true_is_false.
      rewrite Hrun by lia. lia. }
  rewrite Hm2, Hm. rewrite (bool_decide_eq_true_2 (y + 1 = y + 1)) by reflexivity.
  reflexivity.
Qed.

(** Any other row adds no move token to row [r], and leaves the cursor in
    a row not below its own. *)
Lemma row_other (r y bound : nat) (t t' : tracker) :
  y + 1 <> r -> y + 1 <= bound -> cursor_y t <= bound ->
  row_step width rgb prev_rgb y t = Some t' ->
  List.filter (is_move_to_row r) (ansi_parts t')
  = List.filter (is_move_to_row r) (ansi_parts t)
  /\ cursor_y t' <= bound.
Proof.
  intros Hr Hb Hc. unfold row_step.
  destruct (row_unchanged rgb prev_rgb (y * 2)); [by intros [= <-]|].
  apply (for_each_preserves (cell_step rgb prev_rgb y)
           (fun s => List.filter (is_move_to_row r) (ansi_parts s)
                     = List.filter (is_move_to_row r) (ansi_parts t)
                     /\ cursor_y s <= bound)); [|by split].
  intros x s s' _ [Hm Hcy] Hstep.
  destruct (cell_step_cases _ _ _ _ _ _ Hstep) as [[_ ->]|[_ (top & bottom & ->)]];
    [by split|].
  destruct (draw_cell_moves r y x top bottom s) as (Hm' & Hy' & _).
  rewrite Hm', Hm, Hy'. split; [|assumption].
  rewrite (bool_decide_eq_false_2 (y + 1 = r)) by assumption.
  destruct (_ && _); by rewrite app_nil_r.
Qed.

Lemma rows_other (r bound : nat) (ys : list nat) (t t' : tracker) :
  (forall y, y ∈ ys -> y + 1 <> r /\ y + 1 <= bound) -> cursor_y t <= bound ->
  for_each (row_step width rgb prev_rgb) ys t = Some t' ->
  List.filter (is_move_to_row r) (ansi_parts t')
  = List.filter (is_move_to_row r) (ansi_parts t)
  /\ cursor_y t' <= bound.
Proof.
  intros Hys Hc.
  apply (for_each_preserves (row_step width rgb prev_rgb)
           (fun s => List.filter (is_move_to_row r) (ansi_parts s)
                     = List.filter (is_move_to_row r) (ansi_parts t)
                     /\ cursor_y s <= bound)); [|by split].
  intros y s s' Hy [Hm Hcy] Hstep. destruct (Hys y Hy) as [Hne Hle].
  destruct (row_other r y bound s s' Hne Hle Hcy Hstep) as [Hm' Hcy'].
  split; [congruence | assumption].
Qed.

End Row.

(** ** Adjacent changed cells *)

(** A row of adjacent changed cells that starts in the top-left cell gets no
    move token at all. *)
Lemma run_from_top_left_has_no_move :
  changed_run 2 grid_B1 None 0 0 2
  /\ exists parts,
       encode 2 1 grid_B1 None = Some parts
       /\ count_ops (is_move_to_row 1) parts <> 1.
Proof.
  split.
  - split; [lia|]. split; [lia|]. intros x Hx.
    assert (x = 0 \/ x = 1) as [-> | ->] by lia; vm_compute; split; auto; lia.
  - eexists. split; [vm_compute; reflexivity|]. vm_compute. discriminate.
Qed.

(** C5 (amended). When the changed cells of a row are exactly [k >= 1]
    adjacent cells, the stream holds at most one move token into that row:
    exactly one, to the first cell of the stretch, unless the stretch starts
    in the top-left cell, where the tracked cursor already stands at the
    start of the call and no move token is emitted. *)
Theorem adjacent_cells_one_move (width height : nat) (rgb : grid)
    (prev_rgb : option grid) (y c k : nat) (parts : list op) :
  y < height ->
  changed_run width rgb prev_rgb y c k ->
  encode width height rgb prev_rgb = Some parts ->
  List.filter (is_move_to_row (y + 1)) parts
  = if bool_decide (y = 0 /\ c = 0) then [] else [Move (y + 1) (c + 1)].
Proof.
  intros Hy Hrun. unfold encode, scan.
  destruct (for_each _ (range height) fresh) as [t|] eqn:Hscan; [|discriminate].
  intros [= <-]. rewrite filter_finish by reflexivity.
  unfold range in Hscan.
  replace height with (y + (1 + (height - (y + 1)))) in Hscan by lia.
  rewrite !seq_app, for_each_app in Hscan.
  destruct (for_each _ (seq 0 y) fresh) as [t1|] eqn:Hbefore; [|discriminate].
  rewrite for_each_app in Hscan. simpl in Hscan.
  destruct (row_step width rgb prev_rgb y t1) as [t2|] eqn:Hrow; [|discriminate].
  apply (rows_other width rgb prev_rgb (y + 1) (cursor_y t2 + height + 1))
    in Hscan as [Hafter _]; [| | lia].
  2:{ intros y' Hy'. apply elem_of_seq in Hy'. lia. }
  rewrite Hafter, (row_with_run width rgb prev_rgb y c k t1 t2 Hrun Hrow).
  destruct y as [|y].
  - simpl in Hbefore. injection Hbefore as <-. simpl.
    destruct (decide (c = 0)) as [-> | Hc].
    + by rewrite bool_decide_eq_true_2.
    + rewrite (bool_decide_eq_false_2 (1 = c + 1)) by lia.
      by rewrite (bool_decide_eq_false_2 (0 = 0 /\ c = 0)) by lia.
  - apply (rows_other width rgb prev_rgb (S y + 1) (S y)) in Hbefore as [Hm Hcy];
      [| | simpl; lia].
    2:{ intros y' Hy'. apply elem_of_seq in Hy'. lia. }
    rewrite Hm. simpl.
    rewrite (bool_decide_eq_false_2 (cursor_y t1 = S (y + 1))) by lia.
    reflexivity.
Qed.

Lemma adjacent_cells_one_move_witness :
  List.filter (is_move_to_row (0 + 1)) [Move 1 2; SetBg red; SetFg blue; Draw; Reset]
  = if bool_decide (0 = 0 /\ 1 = 0) then [] else [Move (0 + 1) (1 + 1)].
Proof.
  apply (adjacent_cells_one_move 2 1 grid_B2 (Some grid_B1) 0 1 1).
  - lia.
  - split; [lia|]. split; [lia|]. intros x Hx.
    assert (x = 0 \/ x = 1) as [-> | ->] by lia; vm_compute; split;
      intros; try discriminate; try lia; auto.
  - vm_compute. reflexivity.
Defined.

(** ** The scan cannot fail within a run *)

Lemma cell_step_total (width height : nat) (rgb : grid) (prev_rgb : option grid)
    (y x : nat) (t : tracker) :
  wf_grid width height rgb -> covers width height prev_rgb ->
  y < height -> x < width -> is_Some (cell_step rgb prev_rgb y x t).
Proof.
  intros Hwf Hcov Hy Hx. unfold cell_step.
  destruct (px_wf width height rgb (y * 2) x) as [top ->]; [done | lia | done |].
  destruct (px_wf width height rgb (y * 2 + 1) x) as [bottom ->];
    [done | lia | done |].
  destruct prev_rgb as [prev|]; simpl; [|eauto].
  destruct (Hcov prev eq_refl (y * 2) x) as [ptop ->]; [lia | done |].
  destruct (Hcov prev eq_refl (y * 2 + 1) x) as [pbot ->]; [lia | done |].
  destruct (negb _); eauto.
Qed.

(** The scan of a well-formed grid cannot fail when the baseline covers it:
    no IndexError is raised. *)
Lemma scan_total (width height : nat) (rgb : grid) (prev_rgb : option grid)
    (t : tracker) :
  wf_grid width height rgb -> covers width height prev_rgb ->
  is_Some (scan width height rgb prev_rgb t).
Proof.
  intros Hwf Hcov. unfold scan.
  destruct (for_each_inv (row_step width rgb prev_rgb) (fun _ => True)
              (range height) t) as (t' & -> & _); [|done|eauto].
  intros y s Hy _. apply elem_of_range in Hy. unfold row_step.
  destruct (row_unchanged rgb prev_rgb (y * 2)); [eauto|].
  destruct (for_each_inv (cell_step rgb prev_rgb y) (fun _ => True)
              (range width) s) as (s' & -> & _); [|done|eauto].
  intros x s0 Hx _. apply elem_of_range in Hx.
  destruct (cell_step_total width height rgb prev_rgb y x s0) as [s1 ->]; eauto.
Qed.

(** ** No tracker state survives a frame *)

Lemma write_repeats_spec (n frame_idx : nat) (fs : list (nat * string)) :
  exists extra,
    write_repeats n frame_idx fs = (frame_idx + n, fs ++ extra)
    /\ length extra = n.
Proof.
  revert frame_idx fs. induction n as [|n IH]; intros frame_idx fs; simpl.
  - exists []. by rewrite Nat.add_0_r, app_nil_r.
  - destruct (IH (frame_idx + 1) (fs ++ [(frame_idx, "")])) as (extra & -> & Hlen).
    exists ((frame_idx, "") :: extra). rewrite <- app_assoc. simpl.
    split; [f_equal; lia | lia].
Qed.

(** What a step that processes its frame writes and leaves behind. *)
Lemma frame_step_processed (width height : nat) (mult : Q) (rgb : grid)
    (s s' : run_state) :
  (0 < frames_to_generate mult (input_idx s))%Z ->
  frame_step width height mult rgb s = Some s' ->
  exists parts extra,
    encode width height rgb (prev_rgb s) = Some parts
    /\ files s' = files s ++ (frame_idx s, join parts) :: extra
    /\ length extra = range_len (frames_to_generate mult (input_idx s) - 1)
    /\ frame_idx s' = frame_idx s + 1 + length extra
    /\ input_idx s' = input_idx s + 1
    /\ prev_rgb s' = Some rgb.
Proof.
  intros Hpos. unfold frame_step, encode, reset_locals.
  rewrite (proj2 (Z.ltb_lt _ _) Hpos).
  destruct (scan width height rgb (prev_rgb s) fresh) as [t|]; [|discriminate].
  destruct (write_repeats_spec
              (range_len (frames_to_generate mult (input_idx s) - 1))
              (frame_idx s + 1)
              (files s ++ [(frame_idx s, join (finish (ansi_parts t)))]))
    as (extra & -> & Hlen).
  intros [= <-]. exists (finish (ansi_parts t)), extra. simpl.
  rewrite <- app_assoc, Hlen. by repeat split.
Qed.

(** C7. Every processed frame is scanned from the cursor (1,1) with both
    tracked colours unset, whatever the locals held before; so the payload
    written for a frame is determined by the pair (current grid, baseline)
    alone: two runs that reach the same baseline, by whatever history,
    write the same payload for the same next frame. *)
Theorem tracker_state_does_not_leak (width height : nat) (mult : Q) (rgb : grid)
    (s1 s2 s1' s2' : run_state) :
  prev_rgb s1 = prev_rgb s2 ->
  (0 < frames_to_generate mult (input_idx s1))%Z ->
  (0 < frames_to_generate mult (input_idx s2))%Z ->
  frame_step width height mult rgb s1 = Some s1' ->
  frame_step width height mult rgb s2 = Some s2' ->
  (forall old, let t := reset_locals old in
     cursor_y t = 1 /\ cursor_x t = 1 /\ cur_bg t = None /\ cur_fg t = None
     /\ ansi_parts t = [])
  /\ primary_payload s1 s1' = frame_data width height rgb (prev_rgb s1)
  /\ primary_payload s2 s2' = primary_payload s1 s1'.
Proof.
  intros Hprev Hpos1 Hpos2 Hstep1 Hstep2.
  destruct (frame_step_processed _ _ _ _ _ _ Hpos1 Hstep1)
    as (parts1 & extra1 & Henc1 & Hfiles1 & _).
  destruct (frame_step_processed _ _ _ _ _ _ Hpos2 Hstep2)
    as (parts2 & extra2 & Henc2 & Hfiles2 & _).
  assert (forall s s' parts extra,
            files s' = files s ++ (frame_idx s, join parts) :: extra ->
            primary_payload s s' = Some (join parts)) as Hpay.
  { intros s s' parts extra Hf. unfold primary_payload.
    rewrite Hf, lookup_app_r, Nat.sub_diag by lia. reflexivity. }
  split; [by intros old|].
  rewrite (Hpay _ _ _ _ Hfiles1), (Hpay _ _ _ _ Hfiles2).
  unfold frame_data. rewrite Henc1. split; [reflexivity|].
  rewrite <- Hprev in Henc2. congruence.
Qed.

(** Two histories with the same baseline but different final tracker
    states, followed by the same frame. *)
Lemma tracker_state_does_not_leak_witness :
  last_tracker (state_after [grid_B2]) <> last_tracker (state_after [grid_B1; grid_B2])
  /\ primary_payload (state_after [grid_B1; grid_B2])
       (state_after [grid_B1; grid_B2; grid_B1])
     = primary_payload (state_after [grid_B2]) (state_after [grid_B2; grid_B1]).
Proof.
  split; [vm_compute; discriminate|].
  apply (tracker_state_does_not_leak 2 1 1 grid_B1
           (state_after [grid_B2]) (state_after [grid_B1; grid_B2])
           (state_after [grid_B2; grid_B1]) (state_after [grid_B1; grid_B2; grid_B1]));
    vm_compute; reflexivity.
Defined.

(** ** Rounding to binary64 *)

Section Binary64Facts.
Import Binary64.
Local Open Scope Z_scope.

Lemma rhe_bounds (x : Q) : Qfloor x <= round_half_even x <= Qfloor x + 1.
Proof.
  unfold round_half_even. destruct (_ ?= _)%Q; [destruct (Z.even _)| |]; lia.
Qed.

Lemma rhe_mono (x y : Q) : (x <= y)%Q -> round_half_even x <= round_half_even y.
Proof.
  intros Hxy. pose proof (Qfloor_resp_le x y Hxy) as Hf.
  destruct (Z.eq_dec (Qfloor x) (Qfloor y)) as [Heq | Hne].
  - unfold round_half_even. rewrite <- Heq.
    destruct (Qcompare_spec (x - inject_Z (Qfloor x)) (1 # 2)) as [Hx | Hx | Hx];
      destruct (Qcompare_spec (y - inject_Z (Qfloor x)) (1 # 2)) as [Hy | Hy | Hy];
      try (destruct (Z.even (Qfloor x))); try lia; exfalso; lra.
  - pose proof (rhe_bounds x). pose proof (rhe_bounds y). lia.
Qed.

Lemma rhe_Z (z : Z) : round_half_even (inject_Z z) = z.
Proof.
  unfold round_half_even. rewrite Qfloor_Z.
  destruct (Qcompare_spec (inject_Z z - inject_Z z) (1 # 2)) as [H | H | H];
    [exfalso; lra | reflexivity | exfalso; lra].
Qed.

Lemma rhe_compat (x y : Q) : (x == y)%Q -> round_half_even x = round_half_even y.
Proof.
  intros H. apply Z.le_antisymm; apply rhe_mono; rewrite H; apply Qle_refl.
Qed.

Lemma inject_Z_le (a b : Z) : a <= b -> (inject_Z a <= inject_Z b)%Q.
Proof. intros H. rewrite <- Zle_Qle. exact H. Qed.

Lemma pow2_pos (e : Z) : (0 < pow2 e)%Q.
Proof. apply Qpower_0_lt. reflexivity. Qed.

Lemma pow2_add (a b : Z) : (pow2 (a + b) == pow2 a * pow2 b)%Q.
Proof. apply Qpower_plus. discriminate. Qed.

Lemma pow2_le (a b : Z) : a <= b -> (pow2 a <= pow2 b)%Q.
Proof. intros H. apply Qpower_le_compat_l; [exact H | discriminate]. Qed.

Lemma pow2_lt_inv (a b : Z) : (pow2 a < pow2 b)%Q -> a < b.
Proof. intros H. apply (Qpower_lt_compat_l_inv 2); [exact H | reflexivity]. Qed.

Lemma pow2_le_inv (a b : Z) : (pow2 a <= pow2 b)%Q -> a <= b.
Proof. intros H. apply (Qpower_le_compat_l_inv 2); [exact H | reflexivity]. Qed.

Lemma pow2_Z (e : Z) : 0 <= e -> (pow2 e == inject_Z (2 ^ e))%Q.
Proof. intros H. unfold pow2. rewrite (Zpower_Qpower 2 e H). reflexivity. Qed.

(** [ilog2 x] is the binary exponent of a positive [x]. *)
Lemma ilog2_spec (x : Q) :
  (0 < x)%Q -> (pow2 (ilog2 x) <= x < pow2 (ilog2 x + 1))%Q.
Proof.
  intros Hx. destruct x as [n d]. unfold ilog2. cbn [Qnum Qden].
  assert (0 < n) as Hn by (revert Hx; unfold Qlt; simpl; lia).
  set (a := Z.log2 n). set (b := Z.log2 (Z.pos d)).
  destruct (Z.log2_spec n Hn) as [Ha1 Ha2]. fold a in Ha1, Ha2.
  destruct (Z.log2_spec (Z.pos d) ltac:(lia)) as [Hb1 Hb2]. fold b in Hb1, Hb2.
  assert (0 <= a) as Ha0 by apply Z.log2_nonneg.
  assert (0 <= b) as Hb0 by apply Z.log2_nonneg.
  assert ((n # d) * inject_Z (Z.pos d) == inject_Z n)%Q as Hnd.
  { unfold Qeq. simpl. lia. }
  assert (0 < inject_Z (Z.pos d))%Q as Hd by (unfold Qlt; simpl; lia).
  assert (pow2 a <= inject_Z n)%Q as Qa1.
  { rewrite (pow2_Z a Ha0). rewrite <- Zle_Qle. exact Ha1. }
  assert (inject_Z n < pow2 (a + 1))%Q as Qa2.
  { rewrite (pow2_Z (a + 1)) by lia. rewrite <- Zlt_Qlt.
    replace (a + 1) with (Z.succ a) by lia. exact Ha2. }
  assert (pow2 b <= inject_Z (Z.pos d))%Q as Qb1.
  { rewrite (pow2_Z b Hb0). rewrite <- Zle_Qle. exact Hb1. }
  assert (inject_Z (Z.pos d) < pow2 (b + 1))%Q as Qb2.
  { rewrite (pow2_Z (b + 1)) by lia. rewrite <- Zlt_Qlt.
    replace (b + 1) with (Z.succ b) by lia. exact Hb2. }
  assert ((n # d) < pow2 (a - b + 1))%Q as Hup.
  { apply (Qmult_lt_r _ _ (pow2 b) (pow2_pos b)).
    rewrite <- pow2_add. replace (a - b + 1 + b) with (a + 1) by lia.
    eapply Qle_lt_trans; [|exact Qa2]. rewrite <- Hnd.
    apply Qmult_le_l; [exact Hx | exact Qb1]. }
  assert (pow2 (a - b - 1) < (n # d))%Q as Hlo.
  { apply (Qmult_lt_r _ _ (inject_Z (Z.pos d)) Hd). rewrite Hnd.
    eapply Qlt_le_trans; [|exact Qa1].
    replace a with (a - b - 1 + (b + 1)) at 2 by lia. rewrite pow2_add.
    apply Qmult_lt_l; [apply pow2_pos | exact Qb2]. }
  destruct (Qle_bool (pow2 (a - b)) (n # d)) eqn:Hc.
  - apply Qle_bool_iff in Hc. split; assumption.
  - split; [apply Qlt_le_weak; exact Hlo|].
    replace (a - b - 1 + 1) with (a - b) by lia.
    apply Qnot_le_lt. intros Hle. apply Qle_bool_iff in Hle. congruence.
Qed.

Lemma ilog2_unique (x : Q) (e : Z) :
  (pow2 e <= x < pow2 (e + 1))%Q -> ilog2 x = e.
Proof.
  intros [H1 H2].
  assert (0 < x)%Q as Hx by (eapply Qlt_le_trans; [apply (pow2_pos e) | exact H1]).
  destruct (ilog2_spec x Hx) as [S1 S2].
  assert (ilog2 x < e + 1) by (apply pow2_lt_inv; eapply Qle_lt_trans; eassumption).
  assert (e < ilog2 x + 1) by (apply pow2_lt_inv; eapply Qle_lt_trans; eassumption).
  lia.
Qed.

Lemma ilog2_mono (x y : Q) : (0 < x)%Q -> (x <= y)%Q -> ilog2 x <= ilog2 y.
Proof.
  intros Hx Hxy.
  assert (0 < y)%Q as Hy by (eapply Qlt_le_trans; eassumption).
  destruct (ilog2_spec x Hx) as [S1 _]. destruct (ilog2_spec y Hy) as [_ T2].
  assert (ilog2 x < ilog2 y + 1); [|lia].
  apply pow2_lt_inv. eapply Qle_lt_trans; [|exact T2].
  eapply Qle_trans; eassumption.
Qed.

(** The scaled significand lies in [2^52, 2^53). *)
Lemma scaled_bounds (x : Q) :
  (0 < x)%Q ->
  (inject_Z (2 ^ 52) <= x / pow2 (ilog2 x - 52) < inject_Z (2 ^ 53))%Q.
Proof.
  intros Hx. destruct (ilog2_spec x Hx) as [S1 S2].
  set (k := ilog2 x - 52) in *. pose proof (pow2_pos k) as Hk.
  rewrite <- !pow2_Z by lia. split.
  - apply Qle_shift_div_l; [exact Hk|]. rewrite <- pow2_add.
    replace (52 + k) with (ilog2 x) by (unfold k; lia). exact S1.
  - apply Qlt_shift_div_r; [exact Hk|]. rewrite <- pow2_add.
    replace (53 + k) with (ilog2 x + 1) by (unfold k; lia). exact S2.
Qed.

Lemma round_pos_bounds (x : Q) :
  (0 < x)%Q -> (pow2 (ilog2 x) <= round_pos x <= pow2 (ilog2 x + 1))%Q.
Proof.
  intros Hx. destruct (scaled_bounds x Hx) as [B1 B2]. unfold round_pos.
  set (k := ilog2 x - 52) in *. pose proof (pow2_pos k) as Hk.
  apply rhe_mono in B1. rewrite rhe_Z in B1.
  apply Qlt_le_weak, rhe_mono in B2. rewrite rhe_Z in B2.
  replace (ilog2 x) with (52 + k) at 1 by (unfold k; lia).
  replace (ilog2 x + 1) with (53 + k) by (unfold k; lia).
  rewrite !pow2_add, !pow2_Z by lia. split.
  - apply Qmult_le_compat_r; [|apply Qlt_le_weak, Hk]. apply inject_Z_le, B1.
  - apply Qmult_le_compat_r; [|apply Qlt_le_weak, Hk]. apply inject_Z_le, B2.
Qed.

Lemma round_pos_mono (x y : Q) :
  (0 < x)%Q -> (x <= y)%Q -> (round_pos x <= round_pos y)%Q.
Proof.
  intros Hx Hxy.
  assert (0 < y)%Q as Hy by (eapply Qlt_le_trans; eassumption).
  pose proof (ilog2_mono x y Hx Hxy) as He.
  destruct (Z.eq_dec (ilog2 x) (ilog2 y)) as [Heq | Hne].
  - unfold round_pos. rewrite <- Heq. set (k := ilog2 x - 52).
    pose proof (pow2_pos k) as Hk.
    apply Qmult_le_compat_r; [|apply Qlt_le_weak, Hk].
    apply inject_Z_le, rhe_mono.
    apply Qmult_le_compat_r; [exact Hxy|]. apply Qlt_le_weak, Qinv_lt_0_compat, Hk.
  - destruct (round_pos_bounds x Hx) as [_ U]. destruct (round_pos_bounds y Hy) as [L _].
    eapply Qle_trans; [exact U|]. eapply Qle_trans; [|exact L].
    apply pow2_le. lia.
Qed.

Lemma round_pos_pos (x : Q) : (0 < x)%Q -> (0 < round_pos x)%Q.
Proof.
  intros Hx. destruct (round_pos_bounds x Hx) as [L _].
  eapply Qlt_le_trans; [apply pow2_pos | exact L].
Qed.

Lemma round_of_pos (x : Q) : (0 < x)%Q -> round x = round_pos x.
Proof.
  destruct x as [[|p|p] d]; unfold Qlt; simpl; intros H; try lia. reflexivity.
Qed.

Lemma round_of_zero (x : Q) : (x == 0)%Q -> round x = 0%Q.
Proof.
  destruct x as [[|p|p] d]; unfold Qeq; simpl; intros H; try lia. reflexivity.
Qed.

Lemma round_gt_0 (x : Q) : (0 < x)%Q -> (0 < round x)%Q.
Proof. intros Hx. rewrite (round_of_pos x Hx). by apply round_pos_pos. Qed.

Lemma round_nonneg (x : Q) : (0 <= x)%Q -> (0 <= round x)%Q.
Proof.
  intros Hx. apply Qle_lteq in Hx as [Hlt | Heq].
  - apply Qlt_le_weak, round_gt_0, Hlt.
  - rewrite (round_of_zero x); [apply Qle_refl | by symmetry].
Qed.

(** Rounding to nearest is monotone. *)
Lemma round_mono (x y : Q) : (0 <= x)%Q -> (x <= y)%Q -> (round x <= round y)%Q.
Proof.
  intros Hx Hxy. apply Qle_lteq in Hx as [Hlt | Heq].
  - assert (0 < y)%Q as Hy by (eapply Qlt_le_trans; eassumption).
    rewrite (round_of_pos x Hlt), (round_of_pos y Hy). by apply round_pos_mono.
  - rewrite (round_of_zero x) by (by symmetry).
    apply round_nonneg. by rewrite Heq.
Qed.

Lemma round_compat (x y : Q) : (0 <= x)%Q -> (x == y)%Q -> (round x == round y)%Q.
Proof.
  intros Hx Hxy. assert (0 <= y)%Q as Hy by (by rewrite <- Hxy).
  apply Qle_antisym; apply round_mono; try assumption;
    rewrite Hxy; apply Qle_refl.
Qed.

(** Integers up to 2^53 are binary64 numbers. *)
Lemma round_int (i : Z) :
  0 <= i <= 2 ^ 53 -> (round (inject_Z i) == inject_Z i)%Q.
Proof.
  intros [H0 H53]. destruct (Z.eq_dec i 0) as [-> | Hne]; [reflexivity|].
  assert (0 < inject_Z i)%Q as Hpos by (rewrite <- (Zlt_Qlt 0); lia).
  rewrite (round_of_pos _ Hpos). unfold round_pos.
  destruct (ilog2_spec _ Hpos) as [S1 S2]. set (e := ilog2 (inject_Z i)) in *.
  assert (0 <= e).
  { assert (0 < e + 1); [|lia]. apply pow2_lt_inv.
    eapply Qle_lt_trans; [|exact S2]. change (pow2 0) with (inject_Z 1).
    apply inject_Z_le. lia. }
  assert (e <= 53).
  { apply pow2_le_inv. eapply Qle_trans; [exact S1|].
    rewrite (pow2_Z 53) by lia. by apply inject_Z_le. }
  destruct (Z.eq_dec e 53) as [He | He].
  - assert (i = 2 ^ 53) as ->.
    { rewrite He, (pow2_Z 53) in S1 by lia. rewrite <- Zle_Qle in S1. lia. }
    rewrite He. change (53 - 52)%Z with 1%Z.
    rewrite (rhe_compat _ (inject_Z (2 ^ 52))); [|reflexivity].
    rewrite rhe_Z. reflexivity.
  - assert (pow2 (e - 52) * pow2 (52 - e) == 1)%Q as Hinv.
    { rewrite <- pow2_add. replace (e - 52 + (52 - e)) with 0 by lia. reflexivity. }
    pose proof (pow2_pos (e - 52)) as Hk.
    assert (inject_Z i / pow2 (e - 52) == inject_Z (i * 2 ^ (52 - e)))%Q as Hq.
    { rewrite inject_Z_mult, <- (pow2_Z (52 - e)) by lia.
      apply Qmult_inj_r with (pow2 (e - 52)); [lra|].
      rewrite <- Qmult_assoc, (Qmult_comm (pow2 (52 - e))), Hinv.
      field. lra. }
    rewrite (rhe_compat _ _ Hq), rhe_Z, inject_Z_mult, <- (pow2_Z (52 - e)) by lia.
    rewrite <- Qmult_assoc, (Qmult_comm (pow2 (52 - e))), Hinv. ring.
Qed.

End Binary64Facts.

(** ** Frame timing *)

Lemma py_int_floor (x : Q) : (0 <= x)%Q -> py_int x = Qfloor x.
Proof.
  destruct x as [n d]. unfold Qle, py_int, Qfloor. simpl. intros Hn.
  apply Z.quot_div_nonneg; lia.
Qed.

Lemma of_int_nonneg (i : nat) : (0 <= Binary64.of_int (Z.of_nat i))%Q.
Proof. apply round_nonneg, (inject_Z_le 0). lia. Qed.

Lemma of_int_mono (i j : nat) :
  i <= j -> (Binary64.of_int (Z.of_nat i) <= Binary64.of_int (Z.of_nat j))%Q.
Proof.
  intros Hij. apply round_mono; [apply (inject_Z_le 0) | apply inject_Z_le]; lia.
Qed.

Lemma product_nonneg (mult : Q) (i : nat) :
  (0 <= mult)%Q -> (0 <= Binary64.mul (Binary64.of_int (Z.of_nat i)) mult)%Q.
Proof.
  intros Hm. apply round_nonneg, Qmult_le_0_compat; [apply of_int_nonneg | exact Hm].
Qed.

(** The rounded product grows with the index: rounding is monotone. *)
Lemma product_mono (mult : Q) (i j : nat) :
  (0 <= mult)%Q -> i <= j ->
  (Binary64.mul (Binary64.of_int (Z.of_nat i)) mult
   <= Binary64.mul (Binary64.of_int (Z.of_nat j)) mult)%Q.
Proof.
  intros Hm Hij. apply round_mono.
  - apply Qmult_le_0_compat; [apply of_int_nonneg | exact Hm].
  - apply Qmult_le_compat_r; [by apply of_int_mono | exact Hm].
Qed.

Lemma out_frame_idx_floor (mult : Q) (i : nat) :
  (0 <= mult)%Q ->
  out_frame_idx mult i = Qfloor (Binary64.mul (Binary64.of_int (Z.of_nat i)) mult).
Proof. intros Hm. apply py_int_floor, product_nonneg, Hm. Qed.

Lemma out_frame_idx_0 (mult : Q) : out_frame_idx mult 0 = 0%Z.
Proof. destruct mult as [n d]. reflexivity. Qed.

Lemma out_frame_idx_mono_le (mult : Q) (i j : nat) :
  (0 <= mult)%Q -> i <= j -> (out_frame_idx mult i <= out_frame_idx mult j)%Z.
Proof.
  intros Hm Hij. rewrite !out_frame_idx_floor by assumption.
  by apply Qfloor_resp_le, product_mono.
Qed.

Lemma out_frame_idx_mono (mult : Q) (i : nat) :
  (0 <= mult)%Q -> (out_frame_idx mult i <= out_frame_idx mult (i + 1))%Z.
Proof. intros Hm. apply out_frame_idx_mono_le; [exact Hm | lia]. Qed.

Lemma frames_to_generate_nonneg (mult : Q) (i : nat) :
  (0 <= mult)%Q -> (0 <= frames_to_generate mult i)%Z.
Proof.
  intros Hm. unfold frames_to_generate.
  pose proof (out_frame_idx_mono mult i Hm). lia.
Qed.

(** At ratio 1 an index up to 2^53 is its own output index: the conversion
    and the product are exact. *)
Lemma out_frame_idx_unit (mult : Q) (i : nat) :
  (mult == 1)%Q -> (Z.of_nat i <= 2 ^ 53)%Z -> out_frame_idx mult i = Z.of_nat i.
Proof.
  intros Hm Hi. rewrite out_frame_idx_floor by (rewrite Hm; discriminate).
  assert (Binary64.of_int (Z.of_nat i) == inject_Z (Z.of_nat i))%Q as E.
  { apply round_int. lia. }
  assert (Binary64.mul (Binary64.of_int (Z.of_nat i)) mult
          == inject_Z (Z.of_nat i))%Q as ->.
  { transitivity (Binary64.round (inject_Z (Z.of_nat i))); [|exact E].
    apply round_compat.
    - apply Qmult_le_0_compat; [apply of_int_nonneg | rewrite Hm; discriminate].
    - rewrite Hm, E. ring. }
  apply Qfloor_Z.
Qed.

(** X11. The ratio both scripts compute is strictly positive whenever the
    source reports a frame rate that is not negative: a target rate of zero
    or less is replaced by 60, and a source rate of zero gives the ratio 1. *)
Lemma multiplier_pos (target_fps : Z) (orig_fps : Q) :
  (0 <= orig_fps)%Q -> (0 < multiplier target_fps orig_fps)%Q.
Proof.
  intros Ho. unfold multiplier.
  destruct (Qeq_bool orig_fps 0) eqn:Hz; [reflexivity|].
  apply Qeq_bool_neq in Hz.
  assert (0 < orig_fps)%Q as Hpos.
  { apply Qle_lteq in Ho as [Hlt | Heq]; [assumption|].
    exfalso. apply Hz. by symmetry. }
  apply round_gt_0, Qlt_shift_div_l; [assumption|]. rewrite Qmult_0_l.
  apply round_gt_0. unfold effective_fps, Qlt. simpl.
  destruct (Z.leb_spec target_fps 0); lia.
Qed.

(** The tasks of [gen_tasks] telescope. *)
Lemma gen_tasks_from_length {frame : Type} (mult : Q) (frames : list frame) :
  (0 <= mult)%Q ->
  forall idx input_idx,
    Z.of_nat (length (gen_tasks_from mult frames idx input_idx))
    = (out_frame_idx mult (input_idx + length frames)
       - out_frame_idx mult input_idx)%Z.
Proof.
  intros Hm. induction frames as [|f rest IH]; intros idx input_idx; simpl.
  - rewrite Nat.add_0_r. lia.
  - rewrite length_app, length_map, Nat2Z.inj_add, IH.
    unfold range, range_len. rewrite length_seq.
    pose proof (frames_to_generate_nonneg mult input_idx Hm) as Hnn.
    rewrite Z2Nat.id by assumption. unfold frames_to_generate.
    replace (input_idx + 1 + length rest) with (input_idx + S (length rest)) by lia.
    lia.
Qed.

Lemma frame_step_invariant (width height : nat) (mult : Q) (rgb : grid)
    (s : run_state) :
  (0 <= mult)%Q -> wf_grid width height rgb ->
  loop_invariant width height mult s ->
  exists s', frame_step width height mult rgb s = Some s'
             /\ input_idx s' = input_idx s + 1
             /\ loop_invariant width height mult s'.
Proof.
  intros Hm Hwf (Hidx & Hfiles & Hprev).
  pose proof (frames_to_generate_nonneg mult (input_idx s) Hm) as Hnn.
  destruct (Z.ltb_spec 0 (frames_to_generate mult (input_idx s))) as [Hpos|Hzero].
  - destruct (scan_total width height rgb (prev_rgb s) fresh Hwf) as [t Ht].
    { intros prev Hp r c Hr Hc. apply (px_wf width height); auto. }
    assert (is_Some (frame_step width height mult rgb s)) as [s' Hs'].
    { unfold frame_step, reset_locals.
      rewrite (proj2 (Z.ltb_lt _ _) Hpos), Ht. by destruct (write_repeats _ _ _). }
    exists s'. split; [assumption|].
    destruct (frame_step_processed _ _ _ _ _ _ Hpos Hs')
      as (parts & extra & _ & Hf & Hlen & Hfi & Hii & Hp).
    split; [assumption|]. unfold loop_invariant. rewrite Hf, Hfi, Hii, Hp, Hlen.
    rewrite length_app. simpl. rewrite Hlen. unfold range_len.
    unfold frames_to_generate in *.
    split; [lia|]. split; [lia|]. by intros prev [= <-].
  - exists {| frame_idx := frame_idx s; input_idx := input_idx s + 1;
              prev_rgb := prev_rgb s; last_tracker := last_tracker s;
              files := files s |}.
    unfold frame_step. rewrite (proj2 (Z.ltb_ge _ _) Hzero).
    split; [reflexivity|]. split; [reflexivity|]. unfold loop_invariant. simpl.
    split; [|by split]. unfold frames_to_generate in *. lia.
Qed.

Lemma run_frames_invariant (width height : nat) (mult : Q) (frames : list grid) :
  (0 <= mult)%Q -> Forall (wf_grid width height) frames ->
  forall s, loop_invariant width height mult s ->
  exists s', run_frames width height mult frames s = Some s'
             /\ input_idx s' = input_idx s + length frames
             /\ loop_invariant width height mult s'.
Proof.
  intros Hm. unfold run_frames.
  induction 1 as [|rgb rest Hwf _ IH]; intros s Hinv; simpl.
  - exists s. rewrite Nat.add_0_r. auto.
  - destruct (frame_step_invariant width height mult rgb s Hm Hwf Hinv)
      as (s1 & -> & Hi1 & Hinv1).
    destruct (IH s1 Hinv1) as (s' & Hrun & Hi' & Hinv').
    exists s'. split; [assumption|]. split; [lia | assumption].
Qed.

Lemma init_state_invariant (width height : nat) (mult : Q) :
  loop_invariant width height mult init_state.
Proof.
  split; [|split]; [apply eq_sym, out_frame_idx_0 | reflexivity | discriminate].
Qed.

Lemma repeat_slots_unit (mult : Q) (n i : nat) :
  (forall j, j < i + n -> frames_to_generate mult j = 1%Z) ->
  repeat_slots mult n i = 0.
Proof.
  revert i. induction n as [|n IH]; intros i Hone; simpl; [reflexivity|].
  rewrite Hone by lia. rewrite IH; [reflexivity|].
  intros j Hj. apply Hone. lia.
Qed.

(** C2 (as stated). The slot counts are not those of the exact products.
    With 25 input frames at 29 fps from a 25.0 fps source the ratio is the
    float 1.16 and both extractors emit 28 slots, where floor(25 * 29/25) is
    29; frame 24 gets one slot, where floor(25*29/25) - floor(24*29/25) is 2.
    Reading [mult] as the float itself does not help: with 5 frames at 7 fps
    from a 5.0 fps source 7 slots are emitted, where the floor of 5 times the
    float 1.4 is 6. *)
Lemma retiming_is_not_the_exact_floor :
  Z.of_nat (length (gen_tasks (multiplier 29 25) (replicate 25 grid_A))) = 28%Z
  /\ frame_idx <$> run_frames 1 1 (multiplier 29 25) (replicate 25 grid_A) init_state
     = Some 28
  /\ Qfloor (inject_Z 25 * (29 # 25)) = 29%Z
  /\ frames_to_generate (multiplier 29 25) 24 = 1%Z
  /\ (Qfloor (inject_Z 25 * (29 # 25)) - Qfloor (inject_Z 24 * (29 # 25)))%Z = 2%Z
  /\ Z.of_nat (length (gen_tasks (multiplier 7 5) (replicate 5 grid_A))) = 7%Z
  /\ Qfloor (inject_Z 5 * multiplier 7 5) = 6%Z.
Proof. vm_compute. repeat split; reflexivity. Qed.

(** C2 (amended). For a ratio [mult > 0], a grid of at least one cell and
    [N] input frames whose products with [mult] are finite floats, frame [i]
    is given int((i+1)*mult) - int(i*mult) slots, each product rounded to
    binary64 before it is truncated; the slots emitted in total are
    int(N*mult), the product rounded in the same way (the [est_out_frames]
    of the scripts), both by [gen_tasks] and by the ANSI loop, which then
    holds one file per slot.  This holds for [mult < 1] too.  For [mult = 1]
    and [N <= 2^53] every frame gets exactly one slot, the total is [N] and
    no repeat slot is written. *)
Theorem retiming_conservation (width height : nat) (mult : Q) (frames : list grid) :
  (0 < mult)%Q -> 1 <= width -> 1 <= height ->
  Forall (wf_grid width height) frames ->
  Binary64.is_finite (Binary64.mul (Binary64.of_int (Z.of_nat (length frames))) mult) ->
  let N := length frames in
  let prod i := Binary64.mul (Binary64.of_int (Z.of_nat i)) mult in
  (forall i, frames_to_generate mult i
             = (Qfloor (prod (i + 1)%nat) - Qfloor (prod i))%Z)
  /\ Z.of_nat (length (gen_tasks mult frames)) = Qfloor (prod N)
  /\ (exists s, run_frames width height mult frames init_state = Some s
                /\ Z.of_nat (frame_idx s) = Qfloor (prod N)
                /\ length (files s) = frame_idx s)
  /\ ((mult == 1)%Q -> (Z.of_nat N <= 2 ^ 53)%Z ->
      (forall i, i < N -> frames_to_generate mult i = 1%Z)
      /\ length (gen_tasks mult frames) = N
      /\ (exists s, run_frames width height mult frames init_state = Some s
                    /\ frame_idx s = N)
      /\ repeat_slots mult N 0 = 0).
Proof.
  intros Hpos _ _ Hwf _ N prod. apply Qlt_le_weak in Hpos as Hm.
  assert (Z.of_nat (length (gen_tasks mult frames)) = Qfloor (prod N)) as Htasks.
  { unfold gen_tasks. rewrite gen_tasks_from_length by assumption.
    rewrite out_frame_idx_0, Nat.add_0_l, out_frame_idx_floor by assumption.
    fold N. unfold prod. lia. }
  destruct (run_frames_invariant width height mult frames Hm Hwf init_state)
    as (s & Hrun & Hi & Hidx & Hfiles & _); [apply init_state_invariant|].
  simpl in Hi. fold N in Hi.
  assert (Z.of_nat (frame_idx s) = Qfloor (prod N)) as Hslots.
  { rewrite Hidx, Hi. by apply out_frame_idx_floor. }
  split; [|split; [|split]].
  - intros i. unfold frames_to_generate, prod. by rewrite !out_frame_idx_floor.
  - exact Htasks.
  - eauto.
  - intros Hone HN53.
    assert (forall i, i < N -> frames_to_generate mult i = 1%Z) as Hcount.
    { intros i Hi'. unfold frames_to_generate.
      rewrite !out_frame_idx_unit by (assumption || lia). lia. }
    assert (Qfloor (prod N) = Z.of_nat N) as HN.
    { unfold prod. rewrite <- out_frame_idx_floor by assumption.
      by apply out_frame_idx_unit. }
    repeat split; [assumption | lia | | by apply repeat_slots_unit].
    exists s. split; [assumption | lia].
Qed.

Lemma wf_scenario_frames :
  Forall (wf_grid 2 1) [grid_B1; grid_B2; grid_B1; grid_B2].
Proof. repeat constructor. Qed.

(** Scenario C of the specification (ratio 1/2, four input frames, two
    slots), and three frames at ratio 1. *)
Lemma retiming_conservation_witness :
  Z.of_nat (length (gen_tasks (1 # 2) [grid_B1; grid_B2; grid_B1; grid_B2])) = 2%Z
  /\ length (gen_tasks 1 [grid_B1; grid_B2; grid_B1]) = 3
  /\ repeat_slots 1 3 0 = 0.
Proof.
  split.
  - apply (retiming_conservation 2 1 (1 # 2) [grid_B1; grid_B2; grid_B1; grid_B2]).
    + reflexivity.
    + lia.
    + lia.
    + exact wf_scenario_frames.
    + vm_compute. split; discriminate.
  - destruct (retiming_conservation 2 1 1 [grid_B1; grid_B2; grid_B1])
      as (_ & _ & _ & Hone);
      [reflexivity | lia | lia | repeat constructor | vm_compute; split; discriminate |].
    destruct Hone as (_ & Hlen & _ & Hrep); [reflexivity | vm_compute; discriminate |].
    split; [exact Hlen | exact Hrep].
Defined.

(** C10. For a multiplier [mult >= 0] and a frame index [i] whose products
    with [mult] are finite floats, the slot count that the retiming step
    computes, int((i+1)*mult) - int(i*mult) with [int] the floor of the
    rounded product, is non-negative: the slot loop runs exactly that many
    times and, for a processed frame, the repeat loop exactly one time less;
    no negative count is ever clipped. *)
Theorem slot_count_nonneg (mult : Q) (i : nat) :
  (0 <= mult)%Q ->
  Binary64.is_finite (Binary64.mul (Binary64.of_int (Z.of_nat (i + 1))) mult) ->
  frames_to_generate mult i
  = (Qfloor (Binary64.mul (Binary64.of_int (Z.of_nat (i + 1))) mult)
     - Qfloor (Binary64.mul (Binary64.of_int (Z.of_nat i)) mult))%Z
  /\ (0 <= frames_to_generate mult i)%Z
  /\ Z.of_nat (range_len (frames_to_generate mult i)) = frames_to_generate mult i
  /\ ((0 < frames_to_generate mult i)%Z ->
      Z.of_nat (range_len (frames_to_generate mult i - 1))
      = (frames_to_generate mult i - 1)%Z).
Proof.
  intros Hm _. pose proof (frames_to_generate_nonneg mult i Hm) as Hnn.
  unfold range_len. repeat split; try lia.
  unfold frames_to_generate. by rewrite !out_frame_idx_floor.
Qed.

(** A dropped frame at the ratio 1/3.0, which is not a dyadic number, and a
    repeated frame at ratio 2. *)
Lemma slot_count_nonneg_witness :
  (0 <= frames_to_generate (multiplier 1 3) 0)%Z
  /\ Z.of_nat (range_len (frames_to_generate 2 1 - 1))
     = (frames_to_generate 2 1 - 1)%Z.
Proof.
  split.
  - apply (slot_count_nonneg (multiplier 1 3) 0);
      [vm_compute; discriminate | vm_compute; split; discriminate].
  - apply (slot_count_nonneg 2 1);
      [discriminate | vm_compute; split; discriminate | reflexivity].
Defined.

(** ** Raw RGB payload *)

Lemma concat_mjoin {A : Type} (ls : list (list A)) : concat ls = mjoin ls.
Proof. induction ls as [|l ls IH]; [reflexivity|]. simpl. by rewrite IH. Qed.

Lemma pack_H_bytes (v : nat) :
  (N.of_nat v < 65536)%N ->
  exists b0 b1, pack_H v = Some [b0; b1]
                /\ le16 b0 b1 = N.of_nat v /\ (b0 < 256)%N /\ (b1 < 256)%N.
Proof.
  intros Hv. unfold pack_H. rewrite (proj2 (N.ltb_lt _ _) Hv).
  exists (N.of_nat v mod 256)%N, (N.of_nat v / 256)%N. unfold le16.
  split; [reflexivity|].
  pose proof (N.div_mod (N.of_nat v) 256 ltac:(lia)).
  pose proof (N.mod_lt (N.of_nat v) 256 ltac:(lia)).
  repeat split; [lia | lia |].
  apply N.Div0.div_lt_upper_bound. lia.
Qed.

Lemma row_bytes_length (row : list pixel) :
  length (concat (map pixel_bytes row)) = length row * 3.
Proof.
  induction row as [|[[r g] b] row IH]; [reflexivity|].
  simpl. rewrite IH. lia.
Qed.

Lemma tobytes_length (width : nat) (rgb : grid) :
  Forall (fun row => length row = width) rgb ->
  length (tobytes rgb) = width * length rgb * 3.
Proof.
  unfold tobytes. induction 1 as [|row rest Hrow _ IH]; simpl; [lia|].
  rewrite length_app, IH, row_bytes_length, Hrow. lia.
Qed.

Lemma row_bytes_lookup (row : list pixel) (c ch : nat) (p : pixel) :
  row !! c = Some p -> ch < 3 ->
  concat (map pixel_bytes row) !! (c * 3 + ch) = pixel_bytes p !! ch.
Proof.
  intros Hc Hch. rewrite concat_mjoin.
  assert (is_Some (pixel_bytes p !! ch)) as [x Hx].
  { apply lookup_lt_is_Some. by destruct p as [[? ?] ?]. }
  rewrite Hx. apply (join_lookup_Some_same_length' 3); [|assumption|].
  - apply Forall_forall. intros l Hl. apply list_elem_of_In, in_map_iff in Hl.
    by destruct Hl as ([[? ?] ?] & <- & _).
  - exists (pixel_bytes p). split; [|assumption].
    change (map pixel_bytes row) with (pixel_bytes <$> row).
    by rewrite list_lookup_fmap, Hc.
Qed.

Lemma tobytes_lookup (width : nat) (rgb : grid) (r c ch : nat) (p : pixel) :
  Forall (fun row => length row = width) rgb ->
  px rgb r c = Some p -> ch < 3 ->
  tobytes rgb !! ((r * width + c) * 3 + ch) = pixel_bytes p !! ch.
Proof.
  intros Hrows Hp Hch. unfold px in Hp.
  destruct (rgb !! r) as [row|] eqn:Hrow; [|discriminate].
  assert (length row = width) as Hlen.
  { rewrite Forall_forall in Hrows. apply Hrows.
    eapply list_elem_of_lookup_2, Hrow. }
  pose proof (lookup_lt_Some _ _ _ Hp) as Hc.
  rewrite <- (row_bytes_lookup row c ch p Hp Hch).
  assert (is_Some (concat (map pixel_bytes row) !! (c * 3 + ch))) as [x Hx].
  { apply lookup_lt_is_Some. rewrite row_bytes_length. lia. }
  rewrite Hx. unfold tobytes. rewrite concat_mjoin.
  replace ((r * width + c) * 3 + ch) with (r * (width * 3) + (c * 3 + ch)) by lia.
  apply (join_lookup_Some_same_length' (width * 3)); [|lia|].
  - apply Forall_forall. intros l Hl. apply list_elem_of_In, in_map_iff in Hl.
    destruct Hl as (row' & <- & Hin). rewrite row_bytes_length.
    rewrite Forall_forall in Hrows. rewrite (Hrows row'); [reflexivity|].
    by apply list_elem_of_In.
  - exists (concat (map pixel_bytes row)). split; [|assumption].
    change (map ?f rgb) with (f <$> rgb). by rewrite list_lookup_fmap, Hrow.
Qed.

(** C9. The binary payload is a 4-byte header, the width then the height
    as little-endian uint16, followed by exactly [width * height*2 * 3]
    bytes: the R, G, B channels of every pixel of the frame, row by row from
    the top, each row left to right (the full frame, nothing relative to an
    earlier one). *)
Theorem raw_payload_format (w h : nat) (rgb : grid) :
  (N.of_nat w < 65536)%N -> (N.of_nat h < 65536)%N -> wf_grid w h rgb ->
  exists b0 b1 b2 b3 data,
    process_task w h rgb = Some ([b0; b1; b2; b3] ++ data)
    /\ le16 b0 b1 = N.of_nat w /\ le16 b2 b3 = N.of_nat h
    /\ Forall (fun b => (b < 256)%N) [b0; b1; b2; b3]
    /\ data = tobytes rgb
    /\ length data = w * (h * 2) * 3
    /\ forall r c R G B, px rgb r c = Some (R, G, B) ->
         data !! ((r * w + c) * 3) = Some R
         /\ data !! ((r * w + c) * 3 + 1) = Some G
         /\ data !! ((r * w + c) * 3 + 2) = Some B.
Proof.
  intros Hw Hh [Hlen Hrows].
  destruct (pack_H_bytes w Hw) as (b0 & b1 & Hpw & Hw16 & Hb0 & Hb1).
  destruct (pack_H_bytes h Hh) as (b2 & b3 & Hph & Hh16 & Hb2 & Hb3).
  exists b0, b1, b2, b3, (tobytes rgb).
  unfold process_task, pack_HH. rewrite Hpw, Hph.
  split; [reflexivity|]. split; [assumption|]. split; [assumption|].
  split; [by repeat constructor|]. split; [reflexivity|].
  split; [by rewrite (tobytes_length w), Hlen|].
  intros r c R G B Hp.
  rewrite <- (Nat.add_0_r ((r * w + c) * 3)) at 1.
  rewrite !(tobytes_lookup w rgb r c _ (R, G, B)) by (assumption || lia).
  by repeat split.
Qed.

Lemma raw_payload_format_witness :
  exists b0 b1 b2 b3 data,
    process_task 1 1 grid_A = Some ([b0; b1; b2; b3] ++ data)
    /\ le16 b0 b1 = N.of_nat 1 /\ le16 b2 b3 = N.of_nat 1
    /\ Forall (fun b => (b < 256)%N) [b0; b1; b2; b3]
    /\ data = tobytes grid_A
    /\ length data = 1 * (1 * 2) * 3
    /\ forall r c R G B, px grid_A r c = Some (R, G, B) ->
         data !! ((r * 1 + c) * 3) = Some R
         /\ data !! ((r * 1 + c) * 3 + 1) = Some G
         /\ data !! ((r * 1 + c) * 3 + 2) = Some B.
Proof.
  apply (raw_payload_format 1 1 grid_A); [reflexivity | reflexivity |].
  split; [reflexivity | repeat constructor].
Defined.

(** * Further properties of the encoder *)

(** A loop over [seq a n] with an invariant that follows the index. *)
Lemma for_each_seq_ind {St : Type} (body : nat -> St -> option St)
    (I : nat -> St -> Prop) (n : nat) : forall (a : nat) (s s' : St),
  (forall i t t', a <= i < a + n -> I i t -> body i t = Some t' -> I (i + 1) t') ->
  I a s -> for_each body (seq a n) s = Some s' -> I (a + n) s'.
Proof.
  induction n as [|n IH]; intros a s s' Hstep Hs; simpl.
  - intros [= <-]. by rewrite Nat.add_0_r.
  - destruct (body a s) as [s1|] eqn:E; [|discriminate]. intros Hrest.
    replace (a + S n) with (S a + n) by lia.
    apply (IH (S a) s1 s'); [| |exact Hrest].
    + intros i t t' Hi. apply Hstep. lia.
    + replace (S a) with (a + 1) by lia. apply (Hstep a s s1); [lia|done|done].
Qed.

Lemma filter_all_false {A : Type} (f : A -> bool) (xs : list A) :
  (forall x, f x = false) -> List.filter f xs = [].
Proof.
  intros Hf. induction xs as [|x xs IH]; [reflexivity|].
  simpl. by rewrite Hf.
Qed.

(** A band that passes the [np.array_equal] test has no differing cell. *)
Lemma row_unchanged_no_change (rgb : grid) (prev_rgb : option grid) (y x : nat) :
  row_unchanged rgb prev_rgb (y * 2) = true -> cell_differs rgb prev_rgb y x = false.
Proof.
  unfold row_unchanged. destruct prev_rgb as [prev|]; [|discriminate].
  intros Hband. apply bool_decide_eq_true in Hband.
  destruct (band_px rgb prev (y * 2) x Hband) as [Htop Hbot].
  unfold cell_differs, cell_changed. rewrite <- Htop, <- Hbot.
  destruct (px rgb (y * 2) x); [|reflexivity].
  destruct (px rgb (y * 2 + 1) x); [|reflexivity].
  by rewrite !bool_decide_eq_true_2.
Qed.

Lemma cells_draws (rgb : grid) (prev_rgb : option grid) (y : nat) (xs : list nat) :
  forall t t',
  for_each (cell_step rgb prev_rgb y) xs t = Some t' ->
  count_ops is_draw (ansi_parts t')
  = count_ops is_draw (ansi_parts t)
    + length (List.filter (cell_differs rgb prev_rgb y) xs).
Proof.
  induction xs as [|x xs IH]; intros t t'; simpl.
  - intros [= <-]. lia.
  - destruct (cell_step rgb prev_rgb y x t) as [t1|] eqn:Hstep; [|discriminate].
    intros Hrest. rewrite (IH _ _ Hrest).
    destruct (cell_step_cases _ _ _ _ _ _ Hstep)
      as [[-> ->]|[-> (top & bottom & ->)]]; [lia|].
    rewrite draw_cell_draws. simpl. lia.
Qed.

Lemma rows_draws (width : nat) (rgb : grid) (prev_rgb : option grid)
    (ys : list nat) : forall t t',
  for_each (row_step width rgb prev_rgb) ys t = Some t' ->
  count_ops is_draw (ansi_parts t')
  = count_ops is_draw (ansi_parts t)
    + sum_list (map (changed_in_row width rgb prev_rgb) ys).
Proof.
  induction ys as [|y ys IH]; intros t t'; simpl.
  - intros [= <-]. lia.
  - destruct (row_step width rgb prev_rgb y t) as [t1|] eqn:Hrow; [|discriminate].
    intros Hrest. rewrite (IH _ _ Hrest). unfold row_step in Hrow.
    unfold changed_in_row at 2.
    destruct (row_unchanged rgb prev_rgb (y * 2)) eqn:Hskip.
    + injection Hrow as <-.
      rewrite filter_all_false; [simpl; lia|].
      intros x. by apply row_unchanged_no_change.
    + rewrite (cells_draws _ _ _ _ _ _ Hrow). lia.
Qed.

Lemma draws_changed (width height : nat) (rgb : grid) (prev_rgb : option grid)
    (parts : list op) :
  encode width height rgb prev_rgb = Some parts ->
  count_ops is_draw parts = changed_cells width height rgb prev_rgb.
Proof.
  unfold encode, scan.
  destruct (for_each _ (range height) fresh) as [t|] eqn:Hscan; [|discriminate].
  intros [= <-]. rewrite count_ops_finish by reflexivity.
  by rewrite (rows_draws _ _ _ _ _ _ Hscan).
Qed.

(** X1. Whatever the baseline, the stream of a successful call holds exactly
    one draw token per cell that differs from the baseline. *)
Theorem draws_are_the_changed_cells (width height : nat) (rgb : grid)
    (prev_rgb : option grid) (parts : list op) :
  encode width height rgb prev_rgb = Some parts ->
  count_ops is_draw parts = changed_cells width height rgb prev_rgb.
Proof. apply draws_changed. Qed.

Lemma draws_are_the_changed_cells_witness :
  count_ops is_draw [Move 1 2; SetBg red; SetFg blue; Draw; Reset]
  = changed_cells 2 1 grid_B2 (Some grid_B1).
Proof.
  apply (draws_are_the_changed_cells 2 1 grid_B2 (Some grid_B1)).
  vm_compute. reflexivity.
Defined.

(** ** Shape of the stream *)

Lemma draw_cell_shape (y x : nat) (top bottom : pixel) (t : tracker) :
  let t' := draw_cell y x top bottom t in
  count_ops is_reset (ansi_parts t') = count_ops is_reset (ansi_parts t)
  /\ length (ansi_parts t') <= length (ansi_parts t) + 4.
Proof.
  unfold draw_cell, draw_char, set_fg, set_bg, move_cursor.
  repeat (case_bool_decide || case_match || simpl);
    rewrite ?count_ops_app, ?length_app; unfold count_ops; simpl; lia.
Qed.

Lemma cell_step_shape (rgb : grid) (prev_rgb : option grid) (y x : nat)
    (t t' : tracker) :
  scan_shape t -> cell_step rgb prev_rgb y x t = Some t' -> scan_shape t'.
Proof.
  intros [Hr Hl] Hstep.
  destruct (cell_step_cases _ _ _ _ _ _ Hstep) as [[_ ->]|[_ (top & bottom & ->)]];
    [by split|].
  destruct (draw_cell_shape y x top bottom t) as [Hr' Hl'].
  split; [congruence|]. rewrite draw_cell_draws. lia.
Qed.

Lemma scan_keeps_shape (width height : nat) (rgb : grid) (prev_rgb : option grid)
    (t t' : tracker) :
  scan_shape t -> scan width height rgb prev_rgb t = Some t' -> scan_shape t'.
Proof.
  unfold scan. apply for_each_preserves. intros y s s' _ Hs. unfold row_step.
  destruct (row_unchanged rgb prev_rgb (y * 2)); [by intros [= <-]|].
  apply for_each_preserves; [|assumption].
  intros x u u' _. apply cell_step_shape.
Qed.

Lemma fresh_shape : scan_shape fresh.
Proof. split; [reflexivity | simpl; lia]. Qed.

(** X2. A stream that is not empty ends with the reset token, holds no other
    reset token, holds at least one glyph, and spends at most four tokens
    (move, background, foreground, glyph) per glyph. *)
Theorem stream_shape (width height : nat) (rgb : grid) (prev_rgb : option grid)
    (parts : list op) :
  encode width height rgb prev_rgb = Some parts ->
  parts = []
  \/ exists body,
       parts = body ++ [Reset]
       /\ count_ops is_reset body = 0
       /\ 1 <= count_ops is_draw body
       /\ length body <= 4 * count_ops is_draw body.
Proof.
  unfold encode.
  destruct (scan width height rgb prev_rgb fresh) as [t|] eqn:Hscan; [|discriminate].
  intros [= <-].
  destruct (scan_keeps_shape _ _ _ _ _ _ fresh_shape Hscan) as [Hr Hl].
  destruct (ansi_parts t) as [|o body]; [by left|].
  right. exists (o :: body). simpl length in *.
  split; [reflexivity|]. split; [assumption|]. lia.
Qed.

Lemma stream_shape_witness :
  [Move 1 2; SetBg red; SetFg blue; Draw; Reset] = []
  \/ exists body,
       [Move 1 2; SetBg red; SetFg blue; Draw; Reset] = body ++ [Reset]
       /\ count_ops is_reset body = 0
       /\ 1 <= count_ops is_draw body
       /\ length body <= 4 * count_ops is_draw body.
Proof.
  apply (stream_shape 2 1 grid_B2 (Some grid_B1)). vm_compute. reflexivity.
Defined.

(** ** Empty payloads *)

Lemma render_not_empty (o : op) : render o <> "".
Proof. destruct o as [r c|[[r g] b]|[[r g] b]| |]; discriminate. Qed.

Lemma join_empty (parts : list op) : join parts = "" <-> parts = [].
Proof.
  split; [|by intros ->].
  destruct parts as [|o rest]; [reflexivity|]. unfold join. simpl.
  pose proof (render_not_empty o) as Ho.
  destruct (map render rest); [by intros ?|].
  destruct (render o); [done | discriminate].
Qed.

Lemma filter_length_zero {A : Type} (f : A -> bool) (xs : list A) :
  length (List.filter f xs) = 0 <-> forall x, x ∈ xs -> f x = false.
Proof.
  induction xs as [|x xs IH]; simpl.
  - split; [intros _ x Hx; by apply elem_of_nil in Hx | reflexivity].
  - destruct (f x) eqn:Hx; simpl.
    + split; [discriminate|]. intros H. rewrite H in Hx by constructor. discriminate.
    + rewrite IH. split.
      * intros H x' Hx'. apply elem_of_cons in Hx' as [-> | Hx']; auto.
      * intros H x' Hx'. apply H. by constructor.
Qed.

Lemma sum_list_zero {A : Type} (g : A -> nat) (ys : list A) :
  sum_list (map g ys) = 0 <-> forall y, y ∈ ys -> g y = 0.
Proof.
  induction ys as [|y ys IH]; simpl.
  - split; [intros _ y Hy; by apply elem_of_nil in Hy | reflexivity].
  - rewrite Nat.eq_add_0, IH. split.
    + intros [H0 H] y' Hy'. apply elem_of_cons in Hy' as [-> | Hy']; auto.
    + intros H. split; [apply H; constructor|]. intros y' Hy'. apply H. by constructor.
Qed.

Lemma changed_cells_zero (width height : nat) (rgb : grid) (prev_rgb : option grid) :
  changed_cells width height rgb prev_rgb = 0
  <-> forall y x, y < height -> x < width -> cell_differs rgb prev_rgb y x = false.
Proof.
  unfold changed_cells, changed_in_row. rewrite sum_list_zero.
  setoid_rewrite filter_length_zero. setoid_rewrite elem_of_range.
  split; auto.
Qed.

(** X3. The payload of a successful call is the empty string exactly when no
    cell of the grid differs from the baseline. *)
Theorem empty_payload_iff_unchanged (width height : nat) (rgb : grid)
    (prev_rgb : option grid) (payload : string) :
  frame_data width height rgb prev_rgb = Some payload ->
  (payload = ""
   <-> forall y x, y < height -> x < width -> cell_differs rgb prev_rgb y x = false).
Proof.
  unfold frame_data.
  destruct (encode width height rgb prev_rgb) as [parts|] eqn:Henc; [|discriminate].
  intros [= <-]. rewrite join_empty, <- changed_cells_zero.
  rewrite <- (draws_changed _ _ _ _ _ Henc).
  unfold encode in Henc.
  destruct (scan width height rgb prev_rgb fresh) as [t|] eqn:Hscan; [|discriminate].
  injection Henc as <-.
  destruct (scan_keeps_shape _ _ _ _ _ _ fresh_shape Hscan) as [_ Hl].
  rewrite count_ops_finish by reflexivity.
  destruct (ansi_parts t) as [|o body]; [by split|].
  simpl in Hl. split; [discriminate | lia].
Qed.

Lemma empty_payload_iff_unchanged_witness :
  "" = ""
  <-> forall y x, y < 1 -> x < 2 -> cell_differs grid_B1 (Some grid_B1) y x = false.
Proof.
  apply (empty_payload_iff_unchanged 2 1 grid_B1 (Some grid_B1)).
  vm_compute. reflexivity.
Defined.

(** ** Move targets *)

Lemma StronglySorted_snoc {A : Type} (R : A -> A -> Prop) (l : list A) (x : A) :
  StronglySorted R l -> Forall (fun y => R y x) l -> StronglySorted R (l ++ [x]).
Proof.
  induction 1 as [|y l Hl IH Hy]; intros Hx; simpl.
  - repeat constructor.
  - apply Forall_cons in Hx as [Hyx Hx]. constructor; [by apply IH|].
    apply Forall_app. split; [assumption | by constructor].
Qed.

Lemma draw_cell_targets (y x : nat) (top bottom : pixel) (t : tracker) :
  move_targets (ansi_parts (draw_cell y x top bottom t))
  = move_targets (ansi_parts t)
    ++ (if bool_decide (cursor_y t = y + 1) && bool_decide (cursor_x t = x + 1)
        then [] else [(y + 1, x + 1)]).
Proof.
  unfold move_targets, draw_cell, draw_char, set_fg, set_bg, move_cursor.
  destruct (bool_decide (cursor_y t = y + 1) && bool_decide (cursor_x t = x + 1));
    repeat (case_bool_decide; simpl); rewrite ?omap_app; simpl;
    rewrite ?app_nil_r; reflexivity.
Qed.

Lemma targets_inv_weaken (width height : nat) (b b' : nat * nat) (t : tracker) :
  (forall p, before p b -> before p b') ->
  targets_inv width height b t -> targets_inv width height b' t.
Proof.
  intros Hb [Hs Hf]. split; [assumption|].
  eapply Forall_impl; [exact Hf|]. intros p (? & ? & ?). auto.
Qed.

Lemma cell_step_targets (width height : nat) (rgb : grid) (prev_rgb : option grid)
    (y x : nat) (t t' : tracker) :
  y < height -> x < width ->
  targets_inv width height (y + 1, x + 1) t ->
  cell_step rgb prev_rgb y x t = Some t' ->
  targets_inv width height (y + 1, x + 1 + 1) t'.
Proof.
  intros Hy Hx Hinv Hstep.
  assert (forall p, before p (y + 1, x + 1) -> before p (y + 1, x + 1 + 1)) as Hw.
  { intros p. unfold before. simpl. lia. }
  destruct (cell_step_cases _ _ _ _ _ _ Hstep) as [[_ ->]|[_ (top & bottom & ->)]].
  { by apply (targets_inv_weaken _ _ (y + 1, x + 1)). }
  unfold targets_inv. rewrite draw_cell_targets.
  destruct (_ && _).
  { rewrite app_nil_r. by apply (targets_inv_weaken _ _ (y + 1, x + 1)). }
  destruct Hinv as [Hs Hf]. split.
  - apply StronglySorted_snoc; [assumption|].
    eapply Forall_impl; [exact Hf|]. by intros p (? & _).
  - apply Forall_app. split.
    + eapply Forall_impl; [exact Hf|]. intros p (? & ? & ?). auto.
    + constructor; [|constructor]. unfold before. simpl. lia.
Qed.

Lemma row_step_targets (width height : nat) (rgb : grid) (prev_rgb : option grid)
    (y : nat) (t t' : tracker) :
  y < height ->
  targets_inv width height (y + 1, 1) t ->
  row_step width rgb prev_rgb y t = Some t' ->
  targets_inv width height (y + 1 + 1, 1) t'.
Proof.
  intros Hy Hinv. unfold row_step.
  destruct (row_unchanged rgb prev_rgb (y * 2)).
  { intros [= <-]. apply (targets_inv_weaken _ _ (y + 1, 1)); [|assumption].
    intros p. unfold before. simpl. lia. }
  intros Hcells.
  apply (targets_inv_weaken _ _ (y + 1, 0 + width + 1)).
  { intros p. unfold before. simpl. lia. }
  apply (for_each_seq_ind (cell_step rgb prev_rgb y)
           (fun x s => targets_inv width height (y + 1, x + 1) s)
           width 0 t t'); [|assumption|exact Hcells].
  intros x s s' Hx. apply cell_step_targets; lia.
Qed.

(** X4. The move tokens of a stream address cells of the grid only (rows 1
    to [height], columns 1 to [width]) and follow the scan order: each one
    targets a position strictly after the one before it, so no position is
    addressed twice. *)
Theorem moves_follow_scan_order (width height : nat) (rgb : grid)
    (prev_rgb : option grid) (parts : list op) :
  encode width height rgb prev_rgb = Some parts ->
  StronglySorted before (move_targets parts)
  /\ Forall (fun p => 1 <= p.1 <= height /\ 1 <= p.2 <= width) (move_targets parts).
Proof.
  unfold encode, scan.
  destruct (for_each _ (range height) fresh) as [t|] eqn:Hscan; [|discriminate].
  intros [= <-].
  assert (move_targets (finish (ansi_parts t)) = move_targets (ansi_parts t)) as ->.
  { destruct (ansi_parts t); [reflexivity|]. unfold finish, move_targets.
    rewrite omap_app. simpl. by rewrite app_nil_r. }
  destruct (for_each_seq_ind (row_step width rgb prev_rgb)
              (fun y s => targets_inv width height (y + 1, 1) s)
              height 0 fresh t) as [Hs Hf]; [| |exact Hscan|].
  - intros y s s' Hy. apply row_step_targets. lia.
  - split; constructor.
  - split; [assumption|]. eapply Forall_impl; [exact Hf|]. by intros p (_ & ?).
Qed.

Lemma moves_follow_scan_order_witness :
  StronglySorted before (move_targets [Move 1 2; SetBg red; SetFg blue; Draw; Reset])
  /\ Forall (fun p => 1 <= p.1 <= 1 /\ 1 <= p.2 <= 2)
       (move_targets [Move 1 2; SetBg red; SetFg blue; Draw; Reset]).
Proof.
  apply (moves_follow_scan_order 2 1 grid_B2 (Some grid_B1)). vm_compute. reflexivity.
Defined.

(** ** Colour tokens *)

Lemma adjacent_distinct_snoc {A : Type} (l : list A) (x : A) :
  adjacent_distinct l -> last l <> Some x -> adjacent_distinct (l ++ [x]).
Proof.
  induction l as [|y l IH]; intros Hl Hlast; [exact I|].
  destruct l as [|z l]; simpl in *.
  - split; [congruence | exact I].
  - destruct Hl as [Hyz Hl]. split; [assumption|]. by apply IH.
Qed.

Lemma draw_cell_bg (y x : nat) (top bottom : pixel) (t : tracker) :
  bg_tokens (ansi_parts (draw_cell y x top bottom t))
  = bg_tokens (ansi_parts t)
    ++ (if bool_decide (cur_bg t <> Some top) then [top] else [])
  /\ cur_bg (draw_cell y x top bottom t) = Some top.
Proof.
  unfold bg_tokens, draw_cell, draw_char, set_fg, set_bg, move_cursor.
  destruct (bool_decide (cursor_y t = y + 1) && bool_decide (cursor_x t = x + 1));
    simpl; destruct (decide (cur_bg t = Some top)) as [Hbg | Hbg];
    [ rewrite (bool_decide_eq_false_2 (cur_bg t <> Some top)) by tauto
    | rewrite (bool_decide_eq_true_2 (cur_bg t <> Some top)) by assumption
    | rewrite (bool_decide_eq_false_2 (cur_bg t <> Some top)) by tauto
    | rewrite (bool_decide_eq_true_2 (cur_bg t <> Some top)) by assumption ];
    simpl; case_bool_decide; simpl; rewrite ?omap_app; simpl;
    rewrite ?app_nil_r; by split.
Qed.

Lemma draw_cell_fg (y x : nat) (top bottom : pixel) (t : tracker) :
  fg_tokens (ansi_parts (draw_cell y x top bottom t))
  = fg_tokens (ansi_parts t)
    ++ (if bool_decide (cur_fg t <> Some bottom) then [bottom] else [])
  /\ cur_fg (draw_cell y x top bottom t) = Some bottom.
Proof.
  unfold fg_tokens, draw_cell, draw_char, set_fg, set_bg, move_cursor.
  destruct (bool_decide (cursor_y t = y + 1) && bool_decide (cursor_x t = x + 1));
    simpl; destruct (bool_decide (cur_bg t <> Some top)); simpl;
    (destruct (decide (cur_fg t = Some bottom)) as [Hfg | Hfg];
     [ rewrite (bool_decide_eq_false_2 (cur_fg t <> Some bottom)) by tauto
     | rewrite (bool_decide_eq_true_2 (cur_fg t <> Some bottom)) by assumption ]);
    simpl; rewrite ?omap_app; simpl; rewrite ?app_nil_r; by split.
Qed.

Lemma draw_cell_colours (y x : nat) (top bottom : pixel) (t : tracker) :
  colours_inv t -> colours_inv (draw_cell y x top bottom t).
Proof.
  intros (Hb & Hbl & Hf & Hfl). unfold colours_inv.
  destruct (draw_cell_bg y x top bottom t) as [-> ->].
  destruct (draw_cell_fg y x top bottom t) as [-> ->].
  repeat case_bool_decide; rewrite ?app_nil_r, ?last_snoc;
    repeat split; try assumption; try reflexivity;
    try (apply adjacent_distinct_snoc; [assumption | congruence]);
    try (destruct (decide (cur_bg t = Some top)); [congruence | tauto]);
    try (destruct (decide (cur_fg t = Some bottom)); [congruence | tauto]).
Qed.

Lemma scan_colours (width height : nat) (rgb : grid) (prev_rgb : option grid)
    (t t' : tracker) :
  colours_inv t -> scan width height rgb prev_rgb t = Some t' -> colours_inv t'.
Proof.
  unfold scan. apply for_each_preserves. intros y s s' _ Hs. unfold row_step.
  destruct (row_unchanged rgb prev_rgb (y * 2)); [by intros [= <-]|].
  apply for_each_preserves; [|assumption].
  intros x u u' _ Hu Hstep.
  destruct (cell_step_cases _ _ _ _ _ _ Hstep) as [[_ ->]|[_ (top & bottom & ->)]];
    [assumption | by apply draw_cell_colours].
Qed.

(** X5. No colour token is redundant: in a stream, no set-background token
    carries the colour of the set-background token before it, and likewise
    for the set-foreground tokens. *)
Theorem colour_tokens_never_repeat (width height : nat) (rgb : grid)
    (prev_rgb : option grid) (parts : list op) :
  encode width height rgb prev_rgb = Some parts ->
  adjacent_distinct (bg_tokens parts) /\ adjacent_distinct (fg_tokens parts).
Proof.
  unfold encode.
  destruct (scan width height rgb prev_rgb fresh) as [t|] eqn:Hscan; [|discriminate].
  intros [= <-].
  assert (colours_inv fresh) as H0 by (repeat split).
  destruct (scan_colours _ _ _ _ _ _ H0 Hscan) as (Hb & _ & Hf & _).
  assert (bg_tokens (finish (ansi_parts t)) = bg_tokens (ansi_parts t)
          /\ fg_tokens (finish (ansi_parts t)) = fg_tokens (ansi_parts t)) as [-> ->].
  { destruct (ansi_parts t); [by split|]. unfold finish, bg_tokens, fg_tokens.
    rewrite !omap_app. simpl. by rewrite !app_nil_r. }
  by split.
Qed.

Lemma colour_tokens_never_repeat_witness :
  adjacent_distinct (bg_tokens [SetBg red; SetFg green; Draw; Draw; Reset])
  /\ adjacent_distinct (fg_tokens [SetBg red; SetFg green; Draw; Draw; Reset]).
Proof.
  apply (colour_tokens_never_repeat 2 1 grid_B1 None). vm_compute. reflexivity.
Defined.

(** * Playing a stream on the terminal *)

Section Replay.
Import Terminal.
Variable tm0 : terminal.

Lemma play_snoc (parts : list op) (o : op) (tm : terminal) :
  play (parts ++ [o]) tm = exec (play parts tm) o.
Proof. unfold play. by rewrite fold_left_app. Qed.

Lemma move_cursor_tracks (ty tx : nat) (t : tracker) (tm : terminal) :
  tracks tm0 t tm ->
  exists tm', tracks tm0 (move_cursor ty tx t) tm'
              /\ t_row tm' = ty /\ t_col tm' = tx
              /\ t_screen tm' = t_screen tm.
Proof.
  intros (Hp & Hr & Hc & Hb & Hf). unfold move_cursor.
  destruct (bool_decide (cursor_y t = ty)) eqn:Ey;
    destruct (bool_decide (cursor_x t = tx)) eqn:Ex; simpl;
    try (apply bool_decide_eq_true in Ey; apply bool_decide_eq_true in Ex;
         exists tm; repeat split; auto; congruence);
    (exists (exec tm (Move ty tx)); unfold tracks; simpl;
     rewrite play_snoc, <- Hp; repeat split; auto).
Qed.

Lemma set_bg_tracks (p : pixel) (t : tracker) (tm : terminal) :
  tracks tm0 t tm ->
  exists tm', tracks tm0 (set_bg p t) tm'
              /\ t_bg tm' = Some p
              /\ t_row tm' = t_row tm /\ t_col tm' = t_col tm
              /\ t_screen tm' = t_screen tm.
Proof.
  intros (Hp & Hr & Hc & Hb & Hf). unfold set_bg.
  case_bool_decide as Hne.
  - exists (exec tm (SetBg p)). unfold tracks. simpl.
    rewrite play_snoc, <- Hp. repeat split; auto; try by intros ? [= ->].
  - exists tm. destruct (decide (cur_bg t = Some p)) as [Heq|]; [|tauto].
    repeat split; auto.
Qed.

Lemma set_fg_tracks (p : pixel) (t : tracker) (tm : terminal) :
  tracks tm0 t tm ->
  exists tm', tracks tm0 (set_fg p t) tm'
              /\ t_fg tm' = Some p /\ t_bg tm' = t_bg tm
              /\ t_row tm' = t_row tm /\ t_col tm' = t_col tm
              /\ t_screen tm' = t_screen tm.
Proof.
  intros (Hp & Hr & Hc & Hb & Hf). unfold set_fg.
  case_bool_decide as Hne.
  - exists (exec tm (SetFg p)). unfold tracks. simpl.
    rewrite play_snoc, <- Hp. repeat split; auto; try by intros ? [= ->].
  - exists tm. destruct (decide (cur_fg t = Some p)) as [Heq|]; [|tauto].
    repeat split; auto.
Qed.

(** Drawing a cell puts its two colours on the screen at its position. *)
Lemma draw_cell_tracks (y x : nat) (top bottom : pixel) (t : tracker)
    (tm : terminal) :
  tracks tm0 t tm ->
  exists tm', tracks tm0 (draw_cell y x top bottom t) tm'
              /\ t_screen tm'
                 = put (t_screen tm) (y + 1) (x + 1) (Some top, Some bottom).
Proof.
  intros Ht. unfold draw_cell.
  destruct (move_cursor_tracks (y + 1) (x + 1) t tm Ht)
    as (tm1 & Ht1 & Hr1 & Hc1 & Hs1).
  destruct (set_bg_tracks top _ tm1 Ht1) as (tm2 & Ht2 & Hb2 & Hr2 & Hc2 & Hs2).
  destruct (set_fg_tracks bottom _ tm2 Ht2)
    as (tm3 & Ht3 & Hf3 & Hb3 & Hr3 & Hc3 & Hs3).
  exists (exec tm3 Draw). split.
  - destruct Ht3 as (Hp & Hr & Hc & Hb & Hf). unfold tracks, draw_char. simpl.
    rewrite play_snoc, <- Hp. repeat split; auto.
  - simpl. congruence.
Qed.

End Replay.

Import Terminal.

(** What a successful cell step read and did. *)
Lemma cell_step_view (rgb : grid) (prev_rgb : option grid) (y x : nat)
    (t t' : tracker) :
  cell_step rgb prev_rgb y x t = Some t' ->
  exists top bottom,
    px rgb (y * 2) x = Some top /\ px rgb (y * 2 + 1) x = Some bottom
    /\ (t' = draw_cell y x top bottom t
        \/ (t' = t
            /\ exists prev, prev_rgb = Some prev
                            /\ px prev (y * 2) x = Some top
                            /\ px prev (y * 2 + 1) x = Some bottom)).
Proof.
  unfold cell_step, cell_changed.
  destruct (px rgb (y * 2) x) as [top|]; [|discriminate].
  destruct (px rgb (y * 2 + 1) x) as [bottom|]; [|discriminate].
  intros Hstep. exists top, bottom. split; [reflexivity|]. split; [reflexivity|].
  destruct prev_rgb as [prev|]; [|left; congruence].
  destruct (px prev (y * 2) x) as [ptop|] eqn:Hptop; [|discriminate].
  destruct (px prev (y * 2 + 1) x) as [pbot|] eqn:Hpbot; [|discriminate].
  destruct (decide (top = ptop)) as [<-|Hne].
  - destruct (decide (bottom = pbot)) as [<-|Hne].
    + rewrite !bool_decide_eq_true_2 in Hstep by reflexivity. simpl in Hstep.
      right. split; [congruence|]. by exists prev.
    + rewrite (bool_decide_eq_false_2 (bottom = pbot)) in Hstep by assumption.
      rewrite andb_false_r in Hstep. left. simpl in Hstep. congruence.
  - rewrite (bool_decide_eq_false_2 (top = ptop)) in Hstep by assumption.
    left. simpl in Hstep. congruence.
Qed.

Lemma screen_inv_ext (width : nat) (rgb : grid) (scr0 scr : nat -> nat -> cell)
    (pos pos' : nat * nat) :
  (forall r c, passed width pos r c <-> passed width pos' r c) ->
  screen_inv width rgb scr0 pos scr -> screen_inv width rgb scr0 pos' scr.
Proof.
  intros Hpos Hinv r c. destruct (Hinv r c) as [H1 H2].
  split; intros H; [apply H1 | apply H2]; by rewrite Hpos.
Qed.

Lemma passed_next (width y x r c : nat) :
  x < width ->
  (passed width (y + 1, x + 1 + 1) r c
   <-> passed width (y + 1, x + 1) r c \/ (r = y + 1 /\ c = x + 1)).
Proof. unfold passed, before. simpl. lia. Qed.

(** The cell just passed shows its pixels: either it was drawn, or the
    screen showed them before. *)
Lemma screen_inv_step (width : nat) (rgb : grid) (scr0 scr scr' : nat -> nat -> cell)
    (y x : nat) :
  x < width ->
  screen_inv width rgb scr0 (y + 1, x + 1) scr ->
  cell_shows scr' rgb (y + 1) (x + 1) ->
  (forall r c, ~ (r = y + 1 /\ c = x + 1) -> scr' r c = scr r c) ->
  screen_inv width rgb scr0 (y + 1, x + 1 + 1) scr'.
Proof.
  intros Hx Hinv Hcell Hother r c. rewrite passed_next by assumption.
  destruct (Hinv r c) as [H1 H2].
  destruct (decide (r = y + 1 /\ c = x + 1)) as [[-> ->]|Hne].
  - split; [by intros _ | tauto].
  - split.
    + intros [Hp | Heq]; [|tauto]. destruct (H1 Hp) as (top & bottom & ? & ? & Hs).
      exists top, bottom. rewrite Hother by assumption. auto.
    + intros Hnp. rewrite Hother by assumption. apply H2. tauto.
Qed.

Section Scan.
Variables (width height : nat) (rgb : grid) (prev_rgb : option grid).
Variable tm0 : terminal.
Hypothesis baseline_shown :
  forall prev, prev_rgb = Some prev -> shows width height (t_screen tm0) prev.

Lemma cell_step_replay (y x : nat) (t t' : tracker) :
  y < height -> x < width ->
  replay_inv width rgb tm0 (y + 1, x + 1) t ->
  cell_step rgb prev_rgb y x t = Some t' ->
  replay_inv width rgb tm0 (y + 1, x + 1 + 1) t'.
Proof.
  intros Hy Hx (tm & Htr & Hscr) Hstep.
  destruct (cell_step_view _ _ _ _ _ _ Hstep)
    as (top & bottom & Htop & Hbot & [-> | (-> & prev & Hprev & Hptop & Hpbot)]).
  - destruct (draw_cell_tracks tm0 y x top bottom t tm Htr) as (tm' & Htr' & Hs').
    exists tm'. split; [assumption|].
    apply (screen_inv_step _ _ _ (t_screen tm)); [assumption | assumption | |].
    + exists top, bottom. rewrite !Nat.add_sub, Hs'. unfold put.
      by rewrite bool_decide_eq_true_2.
    + intros r c Hne. rewrite Hs'. unfold put. by rewrite bool_decide_eq_false_2.
  - exists tm. split; [assumption|].
    apply (screen_inv_step _ _ _ (t_screen tm)); [assumption | assumption | | done].
    destruct (Hscr (y + 1) (x + 1)) as [_ Hsame].
    destruct (baseline_shown prev Hprev (y + 1) (x + 1)) as (ptop & pbot & H1 & H2 & Hs);
      [lia | lia |].
    exists top, bottom. rewrite !Nat.add_sub in *.
    rewrite Hsame; [| unfold passed, before; simpl; lia].
    rewrite Hs. repeat split; [assumption | assumption | congruence].
Qed.

Lemma row_step_replay (y : nat) (t t' : tracker) :
  y < height ->
  replay_inv width rgb tm0 (y + 1, 1) t ->
  row_step width rgb prev_rgb y t = Some t' ->
  replay_inv width rgb tm0 (y + 1 + 1, 1) t'.
Proof.
  intros Hy Hinv. unfold row_step.
  destruct (row_unchanged rgb prev_rgb (y * 2)) eqn:Hskip.
  - intros [= <-]. destruct Hinv as (tm & Htr & Hscr).
    exists tm. split; [assumption|]. intros r c.
    destruct (Hscr r c) as [H1 H2].
    destruct (decide (passed width (y + 1, 1) r c)) as [Hp | Hnp].
    { split; [auto|]. intros Hn. exfalso. apply Hn.
      revert Hp. unfold passed, before. simpl. lia. }
    split; [|intros Hn; by apply H2].
    intros Hp. assert (r = y + 1 /\ 1 <= c <= width) as [-> Hc].
    { revert Hp Hnp. unfold passed, before. simpl. lia. }
    unfold row_unchanged in Hskip. destruct prev_rgb as [prev|] eqn:Hprev;
      [|discriminate].
    apply bool_decide_eq_true in Hskip.
    destruct (band_px rgb prev (y * 2) (c - 1) Hskip) as [Et Eb].
    destruct (baseline_shown prev eq_refl (y + 1) c) as (top & bottom & Ht & Hb & Hs);
      [lia | lia |].
    exists top, bottom. rewrite !Nat.add_sub in *.
    rewrite Et, Eb, (H2 Hnp). auto.
  - intros Hcells.
    assert (replay_inv width rgb tm0 (y + 1, 0 + width + 1) t') as (tm & Htr & Hscr).
    { apply (for_each_seq_ind (cell_step rgb prev_rgb y)
               (fun x s => replay_inv width rgb tm0 (y + 1, x + 1) s)
               width 0 t t'); [|assumption|exact Hcells].
      intros x s s' Hx. apply cell_step_replay; lia. }
    exists tm. split; [assumption|].
    apply (screen_inv_ext _ _ _ _ (y + 1, 0 + width + 1)); [|assumption].
    intros r c. unfold passed, before. simpl. lia.
Qed.

Lemma scan_replay (t : tracker) :
  t_row tm0 = 1 -> t_col tm0 = 1 ->
  scan width height rgb prev_rgb fresh = Some t ->
  replay_inv width rgb tm0 (height + 1, 1) t.
Proof.
  intros Hr Hc Hscan.
  apply (for_each_seq_ind (row_step width rgb prev_rgb)
           (fun y s => replay_inv width rgb tm0 (y + 1, 1) s)
           height 0 fresh t); [| |exact Hscan].
  - intros y s s' Hy. apply row_step_replay. lia.
  - exists tm0. split; [by repeat split|].
    intros r c. split; [|reflexivity].
    unfold passed, before. simpl. lia.
Qed.

(** Playing the stream of a call on a terminal whose cursor is at home. *)
Lemma encode_replay (parts : list op) :
  t_row tm0 = 1 -> t_col tm0 = 1 ->
  encode width height rgb prev_rgb = Some parts ->
  screen_inv width rgb (t_screen tm0) (height + 1, 1)
    (t_screen (play parts tm0)).
Proof.
  intros Hr Hc. unfold encode.
  destruct (scan width height rgb prev_rgb fresh) as [t|] eqn:Hscan; [|discriminate].
  intros [= <-].
  destruct (scan_replay t Hr Hc Hscan) as (tm & (Hp & _) & Hscr).
  unfold finish. destruct (ansi_parts t) as [|o body] eqn:E.
  - by rewrite Hp in Hscr.
  - rewrite play_snoc, <- Hp. exact Hscr.
Qed.

End Scan.

Lemma passed_all (width height r c : nat) :
  passed width (height + 1, 1) r c <-> 1 <= r <= height /\ 1 <= c <= width.
Proof. unfold passed, before. simpl. lia. Qed.

(** X6. Played on a terminal whose cursor is at home and whose screen shows
    the baseline (any screen when there is no baseline), the stream of a
    successful call leaves the screen showing the current grid: every cell
    has the grid's even-row pixel as background and its odd-row pixel as
    foreground.  Nothing outside the [height] x [width] cells is touched. *)
Theorem replay_shows_frame (width height : nat) (rgb : grid)
    (prev_rgb : option grid) (parts : list op) (tm0 : terminal) :
  encode width height rgb prev_rgb = Some parts ->
  t_row tm0 = 1 -> t_col tm0 = 1 ->
  (forall prev, prev_rgb = Some prev -> shows width height (t_screen tm0) prev) ->
  shows width height (t_screen (play parts tm0)) rgb
  /\ (forall r c, ~ (1 <= r <= height /\ 1 <= c <= width) ->
        t_screen (play parts tm0) r c = t_screen tm0 r c).
Proof.
  intros Henc Hr Hc Hbase.
  pose proof (encode_replay width height rgb prev_rgb tm0 Hbase parts Hr Hc Henc)
    as Hinv.
  split.
  - intros r c Hrr Hcc. apply (Hinv r c). by apply passed_all.
  - intros r c Hout. apply (Hinv r c). by rewrite passed_all.
Qed.

Lemma screen_of_shows (width height : nat) (rgb : grid) :
  wf_grid width height rgb -> shows width height (screen_of rgb) rgb.
Proof.
  intros Hwf r c Hr Hc. unfold cell_shows, screen_of.
  destruct (px_wf width height rgb ((r - 1) * 2) (c - 1) Hwf) as [top ->]; [lia | lia |].
  destruct (px_wf width height rgb ((r - 1) * 2 + 1) (c - 1) Hwf) as [bottom ->];
    [lia | lia |].
  by exists top, bottom.
Qed.

Lemma replay_shows_frame_witness :
  shows 2 1
    (t_screen (play [Move 1 2; SetBg red; SetFg blue; Draw; Reset]
                 (terminal_showing (screen_of grid_B1))))
    grid_B2.
Proof.
  apply (replay_shows_frame 2 1 grid_B2 (Some grid_B1)
           [Move 1 2; SetBg red; SetFg blue; Draw; Reset]
           (terminal_showing (screen_of grid_B1))).
  - vm_compute. reflexivity.
  - reflexivity.
  - reflexivity.
  - intros prev [= <-]. apply screen_of_shows. exact wf_grid_B1.
Defined.

(** * Further properties of the processing loop *)

Lemma write_repeats_eq (n frame_idx : nat) (fs : list (nat * string)) :
  write_repeats n frame_idx fs
  = (frame_idx + n, fs ++ map (fun k => (k, "")) (seq frame_idx n)).
Proof.
  revert frame_idx fs. induction n as [|n IH]; intros frame_idx fs; simpl.
  - by rewrite Nat.add_0_r, app_nil_r.
  - rewrite IH, <- app_assoc. simpl.
    replace (frame_idx + 1) with (S frame_idx) by lia.
    f_equal. lia.
Qed.

(** The files a step writes when it processes its frame. *)
Lemma frame_step_files (width height : nat) (mult : Q) (rgb : grid)
    (s s' : run_state) :
  (0 < frames_to_generate mult (input_idx s))%Z ->
  frame_step width height mult rgb s = Some s' ->
  exists parts,
    encode width height rgb (prev_rgb s) = Some parts
    /\ files s'
       = files s ++ (frame_idx s, join parts)
                    :: map (fun k => (k, ""))
                         (seq (frame_idx s + 1)
                            (range_len (frames_to_generate mult (input_idx s) - 1)))
    /\ frame_idx s'
       = frame_idx s + 1 + range_len (frames_to_generate mult (input_idx s) - 1)
    /\ input_idx s' = input_idx s + 1
    /\ prev_rgb s' = Some rgb.
Proof.
  intros Hpos. unfold frame_step, encode, reset_locals.
  rewrite (proj2 (Z.ltb_lt _ _) Hpos).
  destruct (scan width height rgb (prev_rgb s) fresh) as [t|]; [|discriminate].
  rewrite write_repeats_eq. intros [= <-]. exists (finish (ansi_parts t)). simpl.
  rewrite <- app_assoc. by repeat split.
Qed.

(** A step that drops its frame only counts it. *)
Lemma frame_step_dropped (width height : nat) (mult : Q) (rgb : grid)
    (s s' : run_state) :
  (frames_to_generate mult (input_idx s) <= 0)%Z ->
  frame_step width height mult rgb s = Some s' ->
  files s' = files s /\ frame_idx s' = frame_idx s
  /\ input_idx s' = input_idx s + 1 /\ prev_rgb s' = prev_rgb s.
Proof.
  intros Hle. unfold frame_step. rewrite (proj2 (Z.ltb_ge _ _) Hle).
  by intros [= <-].
Qed.

Lemma frame_step_numbering (width height : nat) (mult : Q) (rgb : grid)
    (s s' : run_state) :
  map fst (files s) = seq 0 (frame_idx s) ->
  frame_step width height mult rgb s = Some s' ->
  map fst (files s') = seq 0 (frame_idx s').
Proof.
  intros Hnum Hstep.
  destruct (Z.lt_ge_cases 0 (frames_to_generate mult (input_idx s))) as [Hpos | Hle].
  - destruct (frame_step_files _ _ _ _ _ _ Hpos Hstep) as (parts & _ & -> & -> & _).
    rewrite map_app, Hnum. simpl. rewrite map_map. simpl. rewrite map_id.
    rewrite <- Nat.add_assoc, seq_app. simpl. rewrite Nat.add_1_r. reflexivity.
  - destruct (frame_step_dropped _ _ _ _ _ _ Hle Hstep) as (-> & -> & _).
    assumption.
Qed.

(** X7. The files of a run are numbered without gap or repetition: in write
    order their sequence numbers are 0, 1, ..., [frame_idx - 1], whatever the
    multiplier and the frames. *)
Theorem files_numbered_contiguously (width height : nat) (mult : Q)
    (frames : list grid) (s : run_state) :
  run_frames width height mult frames init_state = Some s ->
  map fst (files s) = seq 0 (frame_idx s).
Proof.
  unfold run_frames.
  apply (for_each_preserves (frame_step width height mult)
           (fun s => map fst (files s) = seq 0 (frame_idx s))); [|reflexivity].
  intros rgb t t' _. apply frame_step_numbering.
Qed.

Lemma files_numbered_contiguously_witness :
  map fst (files (state_after [grid_B1; grid_B2])) = seq 0 2.
Proof.
  apply (files_numbered_contiguously 2 1 1 [grid_B1; grid_B2]
           (state_after [grid_B1; grid_B2])).
  vm_compute. reflexivity.
Defined.

Lemma frame_step_repeats (width height : nat) (mult : Q) (rgb : grid)
    (s s' : run_state) :
  (0 <= mult)%Q ->
  loop_invariant width height mult s -> repeats_empty mult s ->
  frame_step width height mult rgb s = Some s' ->
  repeats_empty mult s'.
Proof.
  intros Hm (Hidx & Hlen & _) Hrep Hstep i k Hi Hk.
  assert (i < input_idx s ->
          files s !! k = Some (k, "") /\ k < length (files s)) as Hold.
  { intros Hlt. split; [by apply (Hrep i k)|].
    pose proof (out_frame_idx_mono_le mult (i + 1) (input_idx s) Hm ltac:(lia)).
    lia. }
  destruct (Z.lt_ge_cases 0 (frames_to_generate mult (input_idx s))) as [Hpos | Hle].
  - destruct (frame_step_files _ _ _ _ _ _ Hpos Hstep)
      as (parts & _ & Hf & _ & Hii & _).
    rewrite Hii in Hi. rewrite Hf.
    destruct (decide (i < input_idx s)) as [Hlt | Hge].
    + destruct (Hold Hlt) as [Hk' Hkl]. by rewrite lookup_app_l.
    + assert (i = input_idx s) as -> by lia.
      unfold frames_to_generate, range_len in *.
      rewrite lookup_app_r by lia.
      replace (k - length (files s)) with (S (k - frame_idx s - 1)) by lia.
      simpl. change (map ?f ?l) with (f <$> l).
      rewrite list_lookup_fmap, lookup_seq_lt by lia. simpl.
      do 2 f_equal. lia.
  - destruct (frame_step_dropped _ _ _ _ _ _ Hle Hstep) as (-> & _ & Hii & _).
    rewrite Hii in Hi.
    destruct (decide (i < input_idx s)) as [Hlt | Hge]; [by apply Hold|].
    assert (i = input_idx s) as -> by lia.
    unfold frames_to_generate in Hle. lia.
Qed.

Lemma run_frames_repeats (width height : nat) (mult : Q) (frames : list grid) :
  (0 <= mult)%Q -> Forall (wf_grid width height) frames ->
  forall s s',
    loop_invariant width height mult s -> repeats_empty mult s ->
    run_frames width height mult frames s = Some s' ->
    repeats_empty mult s' /\ input_idx s' = input_idx s + length frames.
Proof.
  intros Hm. unfold run_frames.
  induction 1 as [|rgb rest Hwf _ IH]; intros s s' Hinv Hrep; simpl.
  - intros [= <-]. split; [assumption | lia].
  - destruct (frame_step_invariant width height mult rgb s Hm Hwf Hinv)
      as (s1 & Hstep & Hi1 & Hinv1).
    rewrite Hstep. intros Hrun.
    destruct (IH s1 s' Hinv1 (frame_step_repeats _ _ _ _ _ _ Hm Hinv Hrep Hstep) Hrun)
      as [Hrep' Hi']. split; [assumption | lia].
Qed.

(** X8. In a run over well-formed frames with a multiplier [mult >= 0], the
    slots of input frame [i] are those from [out_frame_idx mult i] up to
    [out_frame_idx mult (i + 1) - 1], the indices int(i*mult) as the code
    computes them with a rounded product; every slot of the group but the
    first holds the empty payload (a repeat of the frame just shown). *)
Theorem repeat_slots_are_empty (width height : nat) (mult : Q)
    (frames : list grid) (s : run_state) (i k : nat) :
  (0 <= mult)%Q -> Forall (wf_grid width height) frames ->
  run_frames width height mult frames init_state = Some s ->
  i < length frames ->
  (out_frame_idx mult i < Z.of_nat k < out_frame_idx mult (i + 1))%Z ->
  files s !! k = Some (k, "").
Proof.
  intros Hm Hwf Hrun Hi Hk.
  destruct (run_frames_repeats width height mult frames Hm Hwf init_state s)
    as [Hrep Hidx]; [| |exact Hrun|].
  - split; [|split]; [apply eq_sym, out_frame_idx_0 | reflexivity | discriminate].
  - intros i' k' Hi'. simpl in Hi'. lia.
  - apply (Hrep i k); [|assumption]. rewrite Hidx. simpl. lia.
Qed.

(** Scenario D of the specification: at ratio 2, slot 1 repeats slot 0. *)
Lemma repeat_slots_are_empty_witness :
  files (default init_state (run_frames 2 1 2 [grid_B1; grid_B2; grid_B1] init_state))
    !! 1 = Some (1, "").
Proof.
  apply (repeat_slots_are_empty 2 1 2 [grid_B1; grid_B2; grid_B1] _ 0 1).
  - discriminate.
  - repeat constructor.
  - vm_compute. reflexivity.
  - simpl. lia.
  - vm_compute. split; reflexivity.
Defined.

(** * Further properties of the frame timing *)

Lemma gen_tasks_from_lookup {frame : Type} (mult : Q) (frames : list frame) :
  (0 <= mult)%Q ->
  forall idx0 i0 k idx f,
    Z.of_nat idx0 = out_frame_idx mult i0 ->
    gen_tasks_from mult frames idx0 i0 !! k = Some (idx, f) ->
    idx = idx0 + k
    /\ exists j, frames !! j = Some f
                 /\ (out_frame_idx mult (i0 + j) <= Z.of_nat (idx0 + k)
                     < out_frame_idx mult (i0 + j + 1))%Z.
Proof.
  intros Hm. induction frames as [|f0 rest IH]; intros idx0 i0 k idx f Hidx; simpl.
  - by rewrite lookup_nil.
  - pose proof (frames_to_generate_nonneg mult i0 Hm) as Hnn.
    unfold range, range_len. set (n := Z.to_nat (frames_to_generate mult i0)).
    assert (Z.of_nat n = frames_to_generate mult i0) as Hn by (unfold n; lia).
    destruct (decide (k < n)) as [Hlt | Hge].
    + rewrite lookup_app_l by (by rewrite length_map, length_seq).
      change (map ?g ?l) with (g <$> l).
      rewrite list_lookup_fmap, lookup_seq_lt by assumption. simpl.
      intros [= <- <-]. split; [reflexivity|]. exists 0. split; [reflexivity|].
      rewrite Nat.add_0_r. unfold frames_to_generate in Hn. lia.
    + rewrite lookup_app_r by (rewrite length_map, length_seq; lia).
      rewrite length_map, length_seq. intros Hrest.
      apply IH in Hrest as (-> & j & Hj & Hk).
      2:{ unfold frames_to_generate in Hn. lia. }
      split; [lia|]. exists (S j). split; [exact Hj|].
      replace (i0 + S j) with (i0 + 1 + j) by lia.
      replace (idx0 + k) with (idx0 + n + (k - n)) by lia. exact Hk.
Qed.

(** X10. With a multiplier [mult >= 0] the [k]-th task that [gen_tasks]
    yields carries the sequence number [k] and the input frame [i] whose slot
    group holds [k]: [out_frame_idx mult i <= k < out_frame_idx mult (i + 1)],
    the indices int(i*mult) as the code computes them with a rounded product.
    Output frames are numbered in yield order and show the input frames in
    their order. *)
Theorem task_shows_its_frame {frame : Type} (mult : Q) (frames : list frame)
    (k idx : nat) (f : frame) :
  (0 <= mult)%Q ->
  gen_tasks mult frames !! k = Some (idx, f) ->
  idx = k
  /\ exists i, frames !! i = Some f
               /\ (out_frame_idx mult i <= Z.of_nat k < out_frame_idx mult (i + 1))%Z.
Proof.
  intros Hm Hk. unfold gen_tasks in Hk.
  apply (gen_tasks_from_lookup mult frames Hm 0 0) in Hk as (-> & j & Hj & Hb);
    [|apply eq_sym, out_frame_idx_0].
  split; [reflexivity|]. by exists j.
Qed.

Lemma task_shows_its_frame_witness :
  3 = 3
  /\ exists i, [10; 20; 30] !! i = Some 20
               /\ (out_frame_idx 2 i <= Z.of_nat 3 < out_frame_idx 2 (i + 1))%Z.
Proof.
  apply (task_shows_its_frame 2 [10; 20; 30] 3 3 20); [discriminate|].
  vm_compute. reflexivity.
Defined.

Lemma multiplier_pos_witness : (0 < multiplier 0 (30 # 1))%Q.
Proof. apply (multiplier_pos 0 (30 # 1)). discriminate. Defined.

(** * Further properties of the raw RGB payload *)

Lemma pack_H_inj (v v' : nat) (bs : list N) :
  pack_H v = Some bs -> pack_H v' = Some bs -> v = v'.
Proof.
  unfold pack_H.
  destruct (N.ltb_spec (N.of_nat v) 65536); [|discriminate].
  destruct (N.ltb_spec (N.of_nat v') 65536); [|discriminate].
  intros [= <-] [= Hm Hd].
  pose proof (N.div_mod (N.of_nat v) 256 ltac:(lia)).
  pose proof (N.div_mod (N.of_nat v') 256 ltac:(lia)).
  lia.
Qed.

Lemma pixel_bytes_inj (p p' : pixel) :
  (forall ch, ch < 3 -> pixel_bytes p !! ch = pixel_bytes p' !! ch) -> p = p'.
Proof.
  destruct p as [[r g] b], p' as [[r' g'] b']. intros H.
  pose proof (H 0 ltac:(lia)) as H0. pose proof (H 1 ltac:(lia)) as H1.
  pose proof (H 2 ltac:(lia)) as H2. simpl in *. congruence.
Qed.

(** Two grids of one shape with the same bytes are the same grid. *)
Lemma tobytes_inj (w h : nat) (rgb rgb' : grid) :
  wf_grid w h rgb -> wf_grid w h rgb' -> tobytes rgb = tobytes rgb' -> rgb = rgb'.
Proof.
  intros [Hlen Hrows] [Hlen' Hrows'] Hbytes.
  assert (forall r c p p', px rgb r c = Some p -> px rgb' r c = Some p' -> p = p')
    as Hpx.
  { intros r c p p' Hp Hp'. apply pixel_bytes_inj. intros ch Hch.
    rewrite <- (tobytes_lookup w rgb r c ch p), <- (tobytes_lookup w rgb' r c ch p')
      by assumption.
    by rewrite Hbytes. }
  apply list_eq. intros r.
  destruct (rgb !! r) as [row|] eqn:Hr, (rgb' !! r) as [row'|] eqn:Hr';
    [| apply lookup_lt_Some in Hr; apply lookup_ge_None in Hr'; lia
     | apply lookup_lt_Some in Hr'; apply lookup_ge_None in Hr; lia
     | reflexivity].
  f_equal.
  assert (length row = w) as Hw.
  { rewrite Forall_forall in Hrows. apply Hrows. eapply list_elem_of_lookup_2, Hr. }
  assert (length row' = w) as Hw'.
  { rewrite Forall_forall in Hrows'. apply Hrows'. eapply list_elem_of_lookup_2, Hr'. }
  apply list_eq. intros c.
  destruct (row !! c) as [p|] eqn:Hc, (row' !! c) as [p'|] eqn:Hc';
    [| apply lookup_lt_Some in Hc; apply lookup_ge_None in Hc'; lia
     | apply lookup_lt_Some in Hc'; apply lookup_ge_None in Hc; lia
     | reflexivity].
  f_equal. apply (Hpx r c); unfold px; by rewrite ?Hr, ?Hr'.
Qed.

(** X13. The payload determines the frame: two tasks that write the same
    bytes have the same width, the same height and the same pixels. *)
Theorem raw_payload_determines_frame (w h w' h' : nat) (rgb rgb' : grid)
    (payload : list N) :
  wf_grid w h rgb -> wf_grid w' h' rgb' ->
  process_task w h rgb = Some payload ->
  process_task w' h' rgb' = Some payload ->
  w = w' /\ h = h' /\ rgb = rgb'.
Proof.
  intros Hwf Hwf'. unfold process_task, pack_HH.
  destruct (pack_H w) as [bw|] eqn:Hw; [|discriminate].
  destruct (pack_H h) as [bh|] eqn:Hh; [|discriminate].
  destruct (pack_H w') as [bw'|] eqn:Hw'; [|discriminate].
  destruct (pack_H h') as [bh'|] eqn:Hh'; [|discriminate].
  intros [= <-] [= Heq].
  assert (length bw = 2 /\ length bh = 2 /\ length bw' = 2 /\ length bh' = 2)
    as (L1 & L2 & L3 & L4).
  { unfold pack_H in *. repeat case_match; simplify_eq; done. }
  rewrite <- !app_assoc in Heq.
  apply app_inj_1 in Heq as [-> Heq]; [|lia].
  apply app_inj_1 in Heq as [-> Heq]; [|lia].
  assert (w = w') as <- by (eapply pack_H_inj; eassumption).
  assert (h = h') as <- by (eapply pack_H_inj; eassumption).
  repeat split. symmetry. by apply (tobytes_inj w h).
Qed.

Lemma raw_payload_determines_frame_witness :
  2 = 2 /\ 1 = 1 /\ grid_B1 = grid_B1.
Proof.
  apply (raw_payload_determines_frame 2 1 2 1 grid_B1 grid_B1
           (default [] (process_task 2 1 grid_B1)));
    [exact wf_grid_B1 | exact wf_grid_B1 | reflexivity | reflexivity].
Defined.

(** * The text payload can be read back *)

Import Wire.

Local Open Scope string_scope.
#[local] Arguments String.append !s1 s2.

Lemma string_app_assoc (a b c : string) : (a ++ b) ++ c = a ++ (b ++ c).
Proof. induction a as [|ch a IH]; simpl; [reflexivity | f_equal; exact IH]. Qed.

Lemma string_app_nil_r (a : string) : a ++ "" = a.
Proof. induction a as [|ch a IH]; simpl; [reflexivity | f_equal; exact IH]. Qed.

Lemma lit_app (p rest : string) : lit p (p ++ rest) = Some rest.
Proof.
  induction p as [|c p IH]; simpl; [reflexivity|]. by rewrite Ascii.eqb_refl.
Qed.

Lemma read_digits_app (d : Decimal.uint) (rest : string) :
  no_digit_ahead rest ->
  read_digits (NilEmpty.string_of_uint d ++ rest) = (d, rest).
Proof.
  intros Hrest. induction d as [|d IH|d IH|d IH|d IH|d IH|d IH|d IH|d IH|d IH|d IH];
    simpl; rewrite ?IH; try reflexivity.
  destruct rest as [|c rest]; [reflexivity|]. simpl in *. by rewrite Hrest.
Qed.

Lemma read_digits_dec (d : Decimal.uint) (rest : string) :
  no_digit_ahead rest ->
  exists d', read_digits (NilZero.string_of_uint d ++ rest) = (d', rest)
             /\ Nat.of_uint d' = Nat.of_uint d /\ N.of_uint d' = N.of_uint d.
Proof.
  intros Hrest. destruct d as [|d|d|d|d|d|d|d|d|d|d];
    try (eexists; split; [apply (read_digits_app _ rest Hrest) | by split]).
  exists (Decimal.D0 Decimal.Nil). split; [|by split].
  destruct rest as [|c rest]; [reflexivity|]. simpl in *. by rewrite Hrest.
Qed.

Lemma read_nat_app (n : nat) (rest : string) :
  no_digit_ahead rest -> read_nat (dec_nat n ++ rest) = (n, rest).
Proof.
  intros Hrest. unfold read_nat, dec_nat.
  destruct (read_digits_dec (Nat.to_uint n) rest Hrest) as (d' & -> & Hn & _).
  by rewrite Hn, DecimalNat.Unsigned.of_to.
Qed.

Lemma read_N_app (n : N) (rest : string) :
  no_digit_ahead rest -> read_N (dec_N n ++ rest) = (n, rest).
Proof.
  intros Hrest. unfold read_N, dec_N.
  destruct (read_digits_dec (N.to_uint n) rest Hrest) as (d' & -> & _ & Hn).
  by rewrite Hn, DecimalN.Unsigned.of_to.
Qed.

(** A token followed by anything is read back as that token. *)
Lemma parse_token_render (o : op) (rest : string) :
  parse_token (render o ++ rest) = Some (o, rest).
Proof.
  destruct o as [y x|[[r g] b]|[[r g] b]| |]; unfold parse_token, render.
  - rewrite !string_app_assoc.
    change (ESC ++ "[" ++ ?s) with ((ESC ++ "[") ++ s). rewrite lit_app.
    rewrite read_nat_app by reflexivity.
    change (";" ++ ?s) with (String ";" s). cbv iota beta.
    rewrite read_nat_app by reflexivity. reflexivity.
  - rewrite !string_app_assoc.
    change (ESC ++ "[48;2;" ++ ?s) with ((ESC ++ "[") ++ ("48;2;" ++ s)).
    rewrite lit_app.
    change ("48;2;" ++ ?s) with (dec_nat 48 ++ ";" ++ dec_nat 2 ++ ";" ++ s).
    rewrite read_nat_app by reflexivity.
    change (";" ++ dec_nat 2 ++ ?s) with (String ";" (dec_nat 2 ++ s)). cbv iota beta.
    rewrite read_nat_app by reflexivity.
    change (";" ++ dec_N r ++ ?s) with (String ";" (dec_N r ++ s)). cbv iota beta.
    rewrite read_N_app by reflexivity. rewrite lit_app.
    rewrite read_N_app by reflexivity. rewrite lit_app.
    rewrite read_N_app by reflexivity. rewrite lit_app. reflexivity.
  - rewrite !string_app_assoc.
    change (ESC ++ "[38;2;" ++ ?s) with ((ESC ++ "[") ++ ("38;2;" ++ s)).
    rewrite lit_app.
    change ("38;2;" ++ ?s) with (dec_nat 38 ++ ";" ++ dec_nat 2 ++ ";" ++ s).
    rewrite read_nat_app by reflexivity.
    change (";" ++ dec_nat 2 ++ ?s) with (String ";" (dec_nat 2 ++ s)). cbv iota beta.
    rewrite read_nat_app by reflexivity.
    change (";" ++ dec_N r ++ ?s) with (String ";" (dec_N r ++ s)). cbv iota beta.
    rewrite read_N_app by reflexivity. rewrite lit_app.
    rewrite read_N_app by reflexivity. rewrite lit_app.
    rewrite read_N_app by reflexivity. rewrite lit_app. reflexivity.
  - rewrite lit_app. reflexivity.
  - reflexivity.
Qed.

Lemma join_cons (o : op) (parts : list op) :
  join (o :: parts) = render o ++ join parts.
Proof.
  unfold join. simpl. destruct (map render parts) as [|s ss] eqn:E.
  - simpl. by rewrite string_app_nil_r.
  - reflexivity.
Qed.

Lemma string_length_app (a b : string) :
  String.length (a ++ b) = (String.length a + String.length b)%nat.
Proof. induction a as [|c a IH]; simpl; [reflexivity | by rewrite IH]. Qed.

Lemma join_length (parts : list op) :
  (List.length parts <= String.length (join parts))%nat.
Proof.
  induction parts as [|o parts IH]; [simpl; lia|].
  rewrite join_cons, string_length_app. simpl.
  pose proof (render_not_empty o). destruct (render o); [done | simpl; lia].
Qed.

Lemma parse_tokens_join (parts : list op) : forall fuel,
  (List.length parts <= fuel)%nat -> parse_tokens fuel (join parts) = Some parts.
Proof.
  induction parts as [|o parts IH]; intros fuel Hfuel.
  - by destruct fuel.
  - destruct fuel as [|fuel]; [simpl in Hfuel; lia|].
    rewrite join_cons.
    assert (exists c s, render o ++ join parts = String c s) as (c & s & Hs).
    { pose proof (render_not_empty o). destruct (render o) as [|c r]; [done|].
      by exists c, (r ++ join parts). }
    assert (parse_tokens (S fuel) (render o ++ join parts)
            = match parse_token (render o ++ join parts) with
              | Some (o', rest) =>
                  match parse_tokens fuel rest with
                  | Some ps => Some (o' :: ps)
                  | None => None
                  end
              | None => None
              end) as ->.
    { rewrite Hs. reflexivity. }
    rewrite parse_token_render, IH; [reflexivity | simpl in Hfuel; lia].
Qed.

Lemma parse_join (parts : list op) : parse (join parts) = Some parts.
Proof. apply parse_tokens_join, join_length. Qed.

(** X14. Reading a payload back gives the stream it was joined from: token
    by token, with the numbers in plain decimal, the text of any operation
    stream parses to exactly that stream. *)
Theorem payload_round_trip (parts : list op) : parse (join parts) = Some parts.
Proof. apply parse_join. Qed.

(** X15. The payload text is unambiguous: two operation streams with the
    same text are the same stream. *)
Theorem payload_text_unambiguous (parts parts' : list op) :
  join parts = join parts' -> parts = parts'.
Proof.
  intros Heq. pose proof (parse_join parts) as H. rewrite Heq, parse_join in H.
  congruence.
Qed.

Lemma payload_text_unambiguous_witness :
  [SetBg red; Draw; Reset]%list
  = [SetBg (N.succ 254, 0, 0)%N; Draw; Reset]%list.
Proof.
  apply (payload_text_unambiguous [SetBg red; Draw; Reset]
           [SetBg (N.succ 254, 0, 0)%N; Draw; Reset]).
  vm_compute. reflexivity.
Defined.

Local Open Scope list_scope.

(** * Playing the files of a run *)

Import Player.

Lemma play_file_join (tm : terminal) (parts : list op) :
  play_file tm (join parts) = play parts (home tm).
Proof. unfold play_file. by rewrite parse_join. Qed.

Lemma play_files_app (tm : terminal) (fs gs : list (nat * string)) :
  play_files tm (fs ++ gs) = play_files (play_files tm fs) gs.
Proof. unfold play_files. by rewrite fold_left_app. Qed.

(** Empty files leave the screen as it is. *)
Lemma play_files_empty (ks : list nat) (tm : terminal) :
  t_screen (play_files tm (map (fun k => (k, ""%string)) ks)) = t_screen tm.
Proof.
  revert tm. induction ks as [|k ks IH]; intros tm; [reflexivity|].
  simpl. unfold play_files in *. simpl. rewrite IH. reflexivity.
Qed.

Lemma frame_step_screen (width height : nat) (mult : Q) (rgb : grid)
    (tm0 : terminal) (s s' : run_state) :
  screen_shows_baseline width height tm0 s ->
  frame_step width height mult rgb s = Some s' ->
  screen_shows_baseline width height tm0 s'.
Proof.
  intros Hinv Hstep.
  destruct (Z.lt_ge_cases 0 (frames_to_generate mult (input_idx s))) as [Hpos | Hle].
  - destruct (frame_step_files _ _ _ _ _ _ Hpos Hstep)
      as (parts & Henc & Hf & _ & _ & Hp).
    intros prev Hprev. rewrite Hp in Hprev. injection Hprev as <-.
    rewrite Hf. change (?x :: ?l) with ([x] ++ l). rewrite !play_files_app.
    rewrite play_files_empty.
    change (play_files ?tm [(?i, ?p)]) with (play_file tm p).
    rewrite play_file_join.
    pose proof (encode_replay width height rgb (prev_rgb s)
                  (home (play_files tm0 (files s))) Hinv parts eq_refl eq_refl Henc)
      as Hscr.
    intros r c Hr Hc. apply (Hscr r c). by apply passed_all.
  - destruct (frame_step_dropped _ _ _ _ _ _ Hle Hstep) as (Hf & _ & _ & Hp).
    intros prev Hprev. rewrite Hf. apply Hinv. congruence.
Qed.

Lemma run_frames_input_idx (width height : nat) (mult : Q) (frames : list grid) :
  forall s s', run_frames width height mult frames s = Some s' ->
               input_idx s' = input_idx s + length frames.
Proof.
  unfold run_frames. induction frames as [|rgb rest IH]; intros s s'; simpl.
  - intros [= <-]. lia.
  - destruct (frame_step width height mult rgb s) as [s1|] eqn:Hstep; [|discriminate].
    intros Hrun. rewrite (IH _ _ Hrun).
    assert (input_idx s1 = input_idx s + 1) as ->; [|lia].
    unfold frame_step in Hstep.
    destruct (0 <? frames_to_generate mult (input_idx s))%Z.
    + destruct (scan _ _ _ _ _); [|discriminate].
      destruct (write_repeats _ _ _). by injection Hstep as <-.
    + by injection Hstep as <-.
Qed.

(** X16. Playing the files of a run in order, each from the home position,
    leaves the screen showing the last frame that was given a slot: if the
    run over the frames [rest ++ [rgb]] succeeds and [rgb] gets at least one
    slot, then after all files the screen shows [rgb], on any terminal. *)
Theorem run_replay_shows_last_frame (width height : nat) (mult : Q)
    (rest : list grid) (rgb : grid) (s : run_state) (tm0 : terminal) :
  run_frames width height mult (rest ++ [rgb]) init_state = Some s ->
  (0 < frames_to_generate mult (length rest))%Z ->
  shows width height (t_screen (play_files tm0 (files s))) rgb.
Proof.
  unfold run_frames. rewrite for_each_app.
  destruct (for_each _ rest init_state) as [s1|] eqn:Hrest; [|discriminate].
  simpl. destruct (frame_step width height mult rgb s1) as [s2|] eqn:Hstep;
    [|discriminate].
  intros [= <-] Hpos.
  pose proof (run_frames_input_idx width height mult rest init_state s1 Hrest) as Hidx.
  simpl in Hidx. rewrite <- Hidx in Hpos.
  assert (screen_shows_baseline width height tm0 s1) as Hinv.
  { apply (for_each_preserves (frame_step width height mult)
             (screen_shows_baseline width height tm0) rest init_state s1);
      [|discriminate|exact Hrest].
    intros g t t' _. apply frame_step_screen. }
  apply (frame_step_screen _ _ _ _ _ _ _ Hinv Hstep).
  by destruct (frame_step_files _ _ _ _ _ _ Hpos Hstep) as (_ & _ & _ & _ & _ & ->).
Qed.

Lemma run_replay_shows_last_frame_witness :
  shows 2 1
    (t_screen (play_files (terminal_showing (screen_of grid_A))
                 (files (state_after [grid_B1; grid_B2]))))
    grid_B2.
Proof.
  apply (run_replay_shows_last_frame 2 1 1 [grid_B1] grid_B2
           (state_after [grid_B1; grid_B2]) (terminal_showing (screen_of grid_A)));
    vm_compute; reflexivity.
Defined.

(** * The two extractors side by side *)

(** X17. For the same frames and the same multiplier [mult >= 0] the ANSI
    extractor writes as many files as the raw extractor yields tasks: the
    two outputs have the same slots. *)
Theorem extractors_agree_on_slots (width height : nat) (mult : Q)
    (frames : list grid) (s : run_state) :
  (0 <= mult)%Q -> Forall (wf_grid width height) frames ->
  run_frames width height mult frames init_state = Some s ->
  length (files s) = length (gen_tasks mult frames)
  /\ frame_idx s = length (gen_tasks mult frames).
Proof.
  intros Hm Hwf Hrun.
  destruct (run_frames_invariant width height mult frames Hm Hwf init_state)
    as (s' & Hrun' & Hi & Hidx & Hfiles & _).
  { split; [|split]; [apply eq_sym, out_frame_idx_0 | reflexivity | discriminate]. }
  rewrite Hrun in Hrun'. injection Hrun' as <-.
  pose proof (gen_tasks_from_length mult frames Hm 0 0) as Hlen.
  rewrite out_frame_idx_0 in Hlen. fold (gen_tasks mult frames) in Hlen.
  simpl in Hi, Hlen. rewrite Hi in Hidx. lia.
Qed.

Lemma extractors_agree_on_slots_witness :
  length (files (default init_state
                   (run_frames 2 1 (5 # 2) [grid_B1; grid_B2; grid_B1] init_state)))
  = length (gen_tasks (5 # 2) [grid_B1; grid_B2; grid_B1]).
Proof.
  apply (extractors_agree_on_slots 2 1 (5 # 2) [grid_B1; grid_B2; grid_B1]).
  - discriminate.
  - repeat constructor.
  - vm_compute. reflexivity.
Defined.

(** X18. A frame that gets no slot is never looked at: replacing it by any
    other grid, even one of another shape, changes neither the files nor the
    final state of the run, nor whether the run fails. *)
Theorem dropped_frame_is_ignored (width height : nat) (mult : Q)
    (before_it after_it : list grid) (g g' : grid) :
  (frames_to_generate mult (length before_it) <= 0)%Z ->
  run_frames width height mult (before_it ++ g :: after_it) init_state
  = run_frames width height mult (before_it ++ g' :: after_it) init_state.
Proof.
  intros Hdrop. unfold run_frames. rewrite !for_each_app.
  destruct (for_each _ before_it init_state) as [s1|] eqn:Hpre; [|reflexivity].
  pose proof (run_frames_input_idx width height mult before_it init_state s1 Hpre)
    as Hidx.
  simpl in Hidx.
  assert (frame_step width height mult g s1 = frame_step width height mult g' s1)
    as Hsame.
  { unfold frame_step. by rewrite Hidx, (proj2 (Z.ltb_ge _ _) Hdrop). }
  simpl. by rewrite Hsame.
Qed.

Lemma dropped_frame_is_ignored_witness :
  run_frames 2 1 (1 # 2) ([] ++ grid_B1 :: [grid_B2]) init_state
  = run_frames 2 1 (1 # 2) ([] ++ grid_A :: [grid_B2]) init_state.
Proof.
  apply (dropped_frame_is_ignored 2 1 (1 # 2) [] [grid_B2] grid_B1 grid_A).
  vm_compute. discriminate.
Defined.

(** * The baseline keeps the dimensions of the run *)

(** X19. In a run over frames resized to one [width] x [height * 2] grid of
    at least one cell, with a multiplier [mult >= 0] whose product with the
    number of frames is a finite float, the run never fails,
    and the baseline it leaves is either unset or a grid of those very
    dimensions; so the next frame of the run is encoded without an index
    error.  A baseline of other dimensions does not arise. *)
Theorem baseline_has_run_dimensions (width height : nat) (mult : Q)
    (frames : list grid) :
  (0 <= mult)%Q -> 1 <= width -> 1 <= height ->
  Forall (wf_grid width height) frames ->
  Binary64.is_finite (Binary64.mul (Binary64.of_int (Z.of_nat (length frames))) mult) ->
  exists s, run_frames width height mult frames init_state = Some s
            /\ (forall prev, prev_rgb s = Some prev -> wf_grid width height prev)
            /\ (forall rgb, wf_grid width height rgb ->
                            is_Some (encode width height rgb (prev_rgb s))).
Proof.
  intros Hm _ _ Hwf _.
  destruct (run_frames_invariant width height mult frames Hm Hwf init_state)
    as (s & Hrun & _ & _ & _ & Hprev); [apply init_state_invariant|].
  exists s. split; [exact Hrun|]. split; [exact Hprev|].
  intros rgb Hrgb. unfold encode.
  destruct (scan_total width height rgb (prev_rgb s) fresh Hrgb) as [t ->]; [|eauto].
  intros prev Hp r c Hr Hc. apply (px_wf width height); auto.
Qed.

Lemma baseline_has_run_dimensions_witness :
  exists s, run_frames 2 1 1 [grid_B1; grid_B2] init_state = Some s
            /\ (forall prev, prev_rgb s = Some prev -> wf_grid 2 1 prev)
            /\ (forall rgb, wf_grid 2 1 rgb -> is_Some (encode 2 1 rgb (prev_rgb s))).
Proof.
  apply (baseline_has_run_dimensions 2 1 1 [grid_B1; grid_B2]);
    [discriminate | lia | lia | repeat constructor | vm_compute; split; discriminate].
Defined.
